(** * yf_patchkernel: find, verify, patch and restore kernel instructions

    A shallow embedding of [src/patch_kernel/yf_patchkernel.c] and the
    properties of its scan / patch / restore engine.

    Conventions of the embedding.
    - An [unsigned int] is a [Z]; the only arithmetic the module performs
      on one that can leave the 32-bit range is [patches_applied++], whose
      wrap-around is written out.
    - An [unsigned int *] is the byte address it holds, a [Z]; adding [n] to
      such a pointer adds [4 * n] bytes and wraps at [2^32] (the module
      is MIPS32 only).  [NULL] is address [0].
    - Kernel memory is a total map from (word aligned) addresses to
      instruction words.  The descriptors live in the module's own data
      and are a separate value.
    - A [NULL]-terminated array of [patchEntry_t] is the list of the
      entries that precede the end-of-list marker; their [fname] is not
      [NULL], which is what makes them precede the marker.
    - Every function returns, next to its result, the events it produced
      in program order: the words it read, the words it wrote and the
      [YF_INFO] lines it printed. *)

From Stdlib Require Import ZArith List String Bool Lia.
Import ListNotations.
Local Open Scope Z_scope.

(** ** Instruction encoding constants *)

Definition MIPS_NOP : Z := 0x00000000.
Definition MIPS_ADDIU : Z := 0x24000000.
Definition MIPS_LW : Z := 0x8C000000.
Definition MIPS_TNE : Z := 0x00000036.
Definition MIPS_BASE_MASK : Z := 0x03E00000.
Definition MIPS_RS_MASK : Z := 0x03E00000.
Definition MIPS_RT_MASK : Z := 0x001F0000.
Definition MIPS_OFFS_MASK : Z := 0x0000FFFF.
Definition MIPS_BASE_SHFT : Z := 21.
Definition MIPS_RS_SHFT : Z := 21.
Definition MIPS_RT_SHFT : Z := 16.
Definition MIPS_REG_V0 : Z := 2.
Definition MIPS_REG_V1 : Z := 3.
Definition MIPS_REG_A0 : Z := 4.
Definition MIPS_TRAP_CODE : Z := 0x00000300.
Definition MIPS_AND_MASK : Z := 0xFFFFFFFF.

(** ** Pointers and memory *)

Definition ptr_add (p n : Z) : Z := (p + 4 * n) mod 2 ^ 32.

Definition memory : Type := Z -> Z.

Definition store (m : memory) (a v : Z) : memory :=
  fun a' => if a' =? a then v else m a'.

(** ** The patch descriptor, [patchEntry_t] *)

Record patchEntry : Type := mkPatchEntry {
  fname : string;
  startAddress : Z;
  startOffset : Z;
  maxOffset : Z;
  lookFor : Z;
  andMask : Z;
  orMask : Z;
  verifyOffset : Z;
  verifyValue : Z;
  verifyAndMask : Z;
  verifyOrMask : Z;
  patchOffset : Z;
  patchValue : Z;
  patchAddress : Z;
  originalValue : Z;
  isPatched : Z
}.

Definition set_startAddress (p : patchEntry) (a : Z) : patchEntry :=
  mkPatchEntry (fname p) a (startOffset p) (maxOffset p) (lookFor p)
    (andMask p) (orMask p) (verifyOffset p) (verifyValue p)
    (verifyAndMask p) (verifyOrMask p) (patchOffset p) (patchValue p)
    (patchAddress p) (originalValue p) (isPatched p).

Definition set_patchAddress (p : patchEntry) (a : Z) : patchEntry :=
  mkPatchEntry (fname p) (startAddress p) (startOffset p) (maxOffset p)
    (lookFor p) (andMask p) (orMask p) (verifyOffset p) (verifyValue p)
    (verifyAndMask p) (verifyOrMask p) (patchOffset p) (patchValue p)
    a (originalValue p) (isPatched p).

Definition set_originalValue (p : patchEntry) (v : Z) : patchEntry :=
  mkPatchEntry (fname p) (startAddress p) (startOffset p) (maxOffset p)
    (lookFor p) (andMask p) (orMask p) (verifyOffset p) (verifyValue p)
    (verifyAndMask p) (verifyOrMask p) (patchOffset p) (patchValue p)
    (patchAddress p) v (isPatched p).

Definition set_isPatched (p : patchEntry) (b : Z) : patchEntry :=
  mkPatchEntry (fname p) (startAddress p) (startOffset p) (maxOffset p)
    (lookFor p) (andMask p) (orMask p) (verifyOffset p) (verifyValue p)
    (verifyAndMask p) (verifyOrMask p) (patchOffset p) (patchValue p)
    (patchAddress p) (originalValue p) b.

(** ** Events *)

(** One constructor per [YF_INFO] line of the module, with the values
    the format string prints. *)
Inductive message : Type :=
| MsgUnableToLocate (name : string)
| MsgPatching (name : string) (addr : Z)
| MsgFoundPatched (orgValue addr : Z)
| MsgReplaced (original addr now : Z)
| MsgNoInstruction (name : string)
| MsgReversed (name : string) (addr original : Z)
| MsgInitStarted
| MsgAllocHint
| MsgPatchesApplied (n : Z)
| MsgRemoved
| MsgAllReversed.

Inductive event : Type :=
| EvRead (addr : Z)
| EvWrite (addr value : Z)
| EvInfo (msg : message).

Definition reads_of (evs : list event) : list Z :=
  flat_map (fun e => match e with EvRead a => [a] | _ => [] end) evs.

Definition writes_of (evs : list event) : list (Z * Z) :=
  flat_map (fun e => match e with EvWrite a v => [(a, v)] | _ => [] end) evs.

Definition infos_of (evs : list event) : list message :=
  flat_map (fun e => match e with EvInfo i => [i] | _ => [] end) evs.

(** What a loop iteration hands on: descriptor, counter, memory, and
    the events so far. *)
Definition run : Type := (patchEntry * Z * memory) * list event.

Definition emit (evs : list event) (r : run) : run :=
  (fst r, evs ++ snd r).

(** ** The masked comparison [(word & and) | or] *)

Definition masked (word and_mask or_mask : Z) : Z :=
  Z.lor (Z.land word and_mask) or_mask.

(** ** [yf_patchkernel_patch]: the inner [for] loop

    [fuel] is the number of iterations left, [maxOffset - offset]; [ptr]
    is the loop's pointer.  The three ways out of an iteration are the
    first [break] (the word to patch already holds [patchValue]), the
    patch itself followed by the second [break], and the end of the
    body, reached also by [continue] when verification fails. *)
Fixpoint scan (fuel : nat) (ptr : Z) (patch : patchEntry)
    (patches_applied : Z) (m : memory) : run :=
  match fuel with
  | O => ((patch, patches_applied, m), [])
  | S fuel' =>
    let value := masked (m ptr) (andMask patch) (orMask patch) in
    let orgValue := m (ptr_add ptr (patchOffset patch)) in
    let ev := [EvRead ptr; EvRead (ptr_add ptr (patchOffset patch))] in
    if orgValue =? patchValue patch then
      ((patch, patches_applied, m),
       ev ++ [EvInfo (MsgFoundPatched orgValue
                        (ptr_add ptr (patchOffset patch)))])
    else if value =? lookFor patch then
      let verify :=
        masked (m (ptr_add ptr (verifyOffset patch)))
          (verifyAndMask patch) (verifyOrMask patch) in
      let evv :=
        if negb (verifyOffset patch =? 0)
        then [EvRead (ptr_add ptr (verifyOffset patch))] else [] in
      if negb (verifyOffset patch =? 0) && negb (verify =? verifyValue patch)
      then emit (ev ++ evv)
             (scan fuel' (ptr_add ptr 1) patch patches_applied m)
      else
        let patch1 := set_patchAddress patch
                        (ptr_add ptr (patchOffset patch)) in
        let patch2 := set_originalValue patch1 (m (patchAddress patch1)) in
        let m' := store m (patchAddress patch2) (patchValue patch2) in
        let patch3 := set_isPatched patch2 1 in
        ((patch3, (patches_applied + 1) mod 2 ^ 32, m'),
         ev ++ evv ++
         [EvRead (patchAddress patch1);
          EvWrite (patchAddress patch2) (patchValue patch2);
          EvRead (patchAddress patch3);
          EvInfo (MsgReplaced (originalValue patch3) (patchAddress patch3)
                    (m' (patchAddress patch3)))])
    else emit ev (scan fuel' (ptr_add ptr 1) patch patches_applied m)
  end.

Section Kernel.

(** The kernel's symbol lookup; it answers [0] for an unknown name. *)
Variable kallsyms_lookup_name : string -> Z.

(** ** [yf_patchkernel_patch]: the body of the [while] loop *)
Definition patch_entry (patch : patchEntry) (patches_applied : Z)
    (m : memory) : run :=
  let ptr := kallsyms_lookup_name (fname patch) in
  if ptr =? 0 then
    ((patch, patches_applied, m),
     [EvInfo (MsgUnableToLocate (fname patch))])
  else
    let patch0 := set_startAddress patch ptr in
    let r := scan (Z.to_nat (maxOffset patch0))
               (ptr_add ptr (startOffset patch0)) patch0 patches_applied m in
    let patch' := fst (fst (fst r)) in
    emit [EvInfo (MsgPatching (fname patch) ptr)]
      (fst r,
       snd r ++
       if isPatched patch' =? 0
       then [EvInfo (MsgNoInstruction (fname patch'))] else []).

(** The [while] loop, over the entries before the end-of-list marker.
    The result lists the entries as the loop leaves them. *)
Fixpoint patch_loop (patches : list patchEntry) (patches_applied : Z)
    (m : memory) : (list patchEntry * Z * memory) * list event :=
  match patches with
  | [] => (([], patches_applied, m), [])
  | patch :: rest =>
    let r := patch_entry patch patches_applied m in
    let r' := patch_loop rest (snd (fst (fst r))) (snd (fst r)) in
    ((fst (fst (fst r)) :: fst (fst (fst r')), snd (fst (fst r')),
      snd (fst r')),
     snd r ++ snd r')
  end.

Definition yf_patchkernel_patch (patches : list patchEntry) (m : memory)
    : (list patchEntry * Z * memory) * list event :=
  patch_loop patches 0 m.

End Kernel.

(** ** [yf_patchkernel_restore] *)

Definition restore_entry (patch : patchEntry) (m : memory)
    : (patchEntry * memory) * list event :=
  if negb (isPatched patch =? 0) then
    ((set_isPatched patch 0,
      store m (patchAddress patch) (originalValue patch)),
     [EvWrite (patchAddress patch) (originalValue patch);
      EvInfo (MsgReversed (fname patch) (patchAddress patch)
                (originalValue patch))])
  else ((patch, m), []).

Fixpoint yf_patchkernel_restore (patches : list patchEntry) (m : memory)
    : (list patchEntry * memory) * list event :=
  match patches with
  | [] => (([], m), [])
  | patch :: rest =>
    let r := restore_entry patch m in
    let r' := yf_patchkernel_restore rest (snd (fst r)) in
    ((fst (fst r) :: fst (fst r'), snd (fst r')), snd r ++ snd r')
  end.

(** ** The module: its table, its counter, its entry points *)

Section Module.

(** [offsetof(struct sk_buff, sk)], fixed by the kernel headers the
    module is built against. *)
Variable offsetof_sk_buff_sk : Z.

Definition zero_entry (name : string) : patchEntry :=
  mkPatchEntry name 0 0 0 0 0 0 0 0 0 0 0 0 0 0 0.

Definition patchesForTunDevice : list patchEntry :=
  [ mkPatchEntry "ip_forward" 0 0 10
      ((MIPS_LW + Z.shiftl MIPS_REG_A0 MIPS_BASE_SHFT + offsetof_sk_buff_sk)
       mod 2 ^ 32)
      (MIPS_AND_MASK - MIPS_RT_MASK) 0
      0 0 0 0
      0 (MIPS_ADDIU + Z.shiftl MIPS_REG_V0 MIPS_RT_SHFT)
      0 0 0;
    mkPatchEntry "netif_receive_skb" 0 0 10
      ((MIPS_LW + Z.shiftl MIPS_REG_A0 MIPS_BASE_SHFT + offsetof_sk_buff_sk)
       mod 2 ^ 32)
      (MIPS_AND_MASK - MIPS_RT_MASK) 0
      1 (MIPS_TNE + MIPS_TRAP_CODE) (MIPS_AND_MASK - MIPS_RT_MASK) 0
      1 MIPS_NOP
      0 0 0;
    mkPatchEntry "__netif_receive_skb" 0 0 8
      ((MIPS_LW + Z.shiftl MIPS_REG_A0 MIPS_BASE_SHFT + offsetof_sk_buff_sk)
       mod 2 ^ 32)
      (MIPS_AND_MASK - MIPS_RT_MASK) 0
      1 (MIPS_TNE + MIPS_TRAP_CODE) (MIPS_AND_MASK - MIPS_RT_MASK) 0
      1 MIPS_NOP
      0 0 0 ].

Variable kallsyms_lookup_name : string -> Z.

(** The module's static data: the table and the file-scope counter. *)
Record module_data : Type := mkModule {
  table : list patchEntry;
  patches_applied : Z
}.

Definition module_loaded : module_data := mkModule patchesForTunDevice 0.

(** [yf_patchkernel_init]; it always returns [0]. *)
Definition yf_patchkernel_init (d : module_data) (m : memory)
    : (Z * module_data * memory) * list event :=
  let r := yf_patchkernel_patch kallsyms_lookup_name (table d) m in
  ((0, mkModule (fst (fst (fst r))) (snd (fst (fst r))), snd (fst r)),
   [EvInfo MsgInitStarted; EvInfo MsgAllocHint] ++ snd r ++
   [EvInfo (MsgPatchesApplied (snd (fst (fst r))))]).

(** [yf_patchkernel_exit] *)
Definition yf_patchkernel_exit (d : module_data) (m : memory)
    : (module_data * memory) * list event :=
  let r := yf_patchkernel_restore (table d) m in
  ((mkModule (fst (fst r)) (patches_applied d), snd (fst r)),
   [EvInfo MsgRemoved] ++ snd r ++ [EvInfo MsgAllReversed]).

End Module.

(** ** Vocabulary of the properties *)

(** The three tests the loop body makes at the position [ptr]. *)
Definition already (p : patchEntry) (m : memory) (ptr : Z) : bool :=
  m (ptr_add ptr (patchOffset p)) =? patchValue p.

Definition primary (p : patchEntry) (m : memory) (ptr : Z) : bool :=
  masked (m ptr) (andMask p) (orMask p) =? lookFor p.

Definition verified (p : patchEntry) (m : memory) (ptr : Z) : bool :=
  (verifyOffset p =? 0)
  || (masked (m (ptr_add ptr (verifyOffset p)))
        (verifyAndMask p) (verifyOrMask p) =? verifyValue p).

Definition hit (p : patchEntry) (m : memory) (ptr : Z) : bool :=
  primary p m ptr && verified p m ptr.

(** The loop's pointer after [j] increments. *)
Fixpoint pos (ptr : Z) (j : nat) : Z :=
  match j with
  | O => ptr
  | S j' => pos (ptr_add ptr 1) j'
  end.

(** The descriptor as the patch at position [ptr] leaves it. *)
Definition applied_entry (p : patchEntry) (m : memory) (ptr : Z)
    : patchEntry :=
  set_isPatched
    (set_originalValue
       (set_patchAddress p (ptr_add ptr (patchOffset p)))
       (m (ptr_add ptr (patchOffset p))))
    1.

(** The reads of an iteration. *)
Definition guard_reads (p : patchEntry) (ptr : Z) : list event :=
  [EvRead ptr; EvRead (ptr_add ptr (patchOffset p))].

Definition verify_reads (p : patchEntry) (ptr : Z) : list event :=
  if negb (verifyOffset p =? 0)
  then [EvRead (ptr_add ptr (verifyOffset p))] else [].

(** The events of an iteration that ends in neither [break]. *)
Definition miss_events (p : patchEntry) (m : memory) (ptr : Z)
    : list event :=
  guard_reads p ptr ++ if primary p m ptr then verify_reads p ptr else [].

Fixpoint skip_events (p : patchEntry) (m : memory) (i : nat) (ptr : Z)
    : list event :=
  match i with
  | O => []
  | S i' => miss_events p m ptr ++ skip_events p m i' (ptr_add ptr 1)
  end.

Definition already_events (p : patchEntry) (m : memory) (ptr : Z)
    : list event :=
  guard_reads p ptr ++
  [EvInfo (MsgFoundPatched (m (ptr_add ptr (patchOffset p)))
             (ptr_add ptr (patchOffset p)))].

Definition hit_events (p : patchEntry) (m : memory) (ptr : Z)
    : list event :=
  guard_reads p ptr ++ verify_reads p ptr ++
  [EvRead (ptr_add ptr (patchOffset p));
   EvWrite (ptr_add ptr (patchOffset p)) (patchValue p);
   EvRead (ptr_add ptr (patchOffset p));
   EvInfo (MsgReplaced (m (ptr_add ptr (patchOffset p)))
             (ptr_add ptr (patchOffset p)) (patchValue p))].

(** A memory holding the words [ws] from address [base] on, and the
    content of [rest] everywhere else. *)
Definition mem_of_words (base : Z) (ws : list Z) (rest : memory) : memory :=
  fun a =>
    if (base <=? a) && (a <? base + 4 * Z.of_nat (List.length ws))
       && ((a - base) mod 4 =? 0)
    then nth (Z.to_nat ((a - base) / 4)) ws 0
    else rest a.

(** The descriptor's configuration never changes; only the result
    fields do. *)
Definition same_config (p q : patchEntry) : Prop :=
  fname q = fname p /\ startOffset q = startOffset p /\
  maxOffset q = maxOffset p /\ lookFor q = lookFor p /\
  andMask q = andMask p /\ orMask q = orMask p /\
  verifyOffset q = verifyOffset p /\ verifyValue q = verifyValue p /\
  verifyAndMask q = verifyAndMask p /\ verifyOrMask q = verifyOrMask p /\
  patchOffset q = patchOffset p /\ patchValue q = patchValue p.

(** ** The scanner in the words of the design

    [matches], [scanner] and [has_match] are written from the design
    text (Masked Comparator, Instruction Scanner); [scan_refines] below
    ties [scan] to them. *)

Definition matches (word mask_and mask_or expected : Z) : bool :=
  Z.lor (Z.land word mask_and) mask_or =? expected.

Inductive scanResult : Type :=
| Found (candidateAddress : Z)
| AlreadyApplied (patchedAddress : Z)
| NotFound.

Fixpoint scanner (p : patchEntry) (m : memory) (n : nat) (position : Z)
    : scanResult :=
  match n with
  | O => NotFound
  | S n' =>
    if m (ptr_add position (patchOffset p)) =? patchValue p
    then AlreadyApplied (ptr_add position (patchOffset p))
    else if matches (m position) (andMask p) (orMask p) (lookFor p) then
      if verifyOffset p =? 0 then Found position
      else if matches (m (ptr_add position (verifyOffset p)))
                (verifyAndMask p) (verifyOrMask p) (verifyValue p)
      then Found position
      else scanner p m n' (ptr_add position 1)
    else scanner p m n' (ptr_add position 1)
  end.

(** Some position of the window passes the search comparison and, when
    one is configured, the verification. *)
Fixpoint has_match (p : patchEntry) (m : memory) (n : nat) (position : Z)
    : bool :=
  match n with
  | O => false
  | S n' => hit p m position || has_match p m n' (ptr_add position 1)
  end.

(** ** Reading a result *)

Definition res_val {A : Type} (r : (A * Z * memory) * list event) : A :=
  fst (fst (fst r)).
Definition res_count {A : Type} (r : (A * Z * memory) * list event) : Z :=
  snd (fst (fst r)).
Definition res_mem {A : Type} (r : (A * Z * memory) * list event) : memory :=
  snd (fst r).
Definition res_events {A : Type} (r : (A * Z * memory) * list event)
    : list event :=
  snd r.

(** Position [j] of the search window of [p] below the base address. *)
Definition window_pos (base : Z) (p : patchEntry) (j : nat) : Z :=
  ptr_add base (startOffset p + Z.of_nat j).

(** ** Worked data

    The module's own table, built against [offsetof(struct sk_buff, sk)
    = 16], in a kernel that knows [ip_forward] and [netif_receive_skb]
    but not [__netif_receive_skb]. *)

Definition ex_table : list patchEntry := patchesForTunDevice 16.

Definition ex_ip_forward : patchEntry := nth 0 ex_table (zero_entry "").
Definition ex_netif : patchEntry := nth 1 ex_table (zero_entry "").
Definition ex_netif2 : patchEntry := nth 2 ex_table (zero_entry "").

Definition ex_lookup (name : string) : Z :=
  if String.eqb name "ip_forward" then 0x80100000
  else if String.eqb name "netif_receive_skb" then 0x80200000
  else 0.

Definition ex_blank : memory := fun _ => 0xFFFFFFFF.

(** [lw v0,16(a0)] is the fourth instruction of [ip_forward]. *)
Definition ex_ip_forward_text : list Z :=
  [0x27BDFFD0; 0xAFBF002C; 0xAFB00028; 0x8C820010; 0x00808025;
   0x8E020000; 0x00401825; 0x8FBF002C; 0x8FB00028; 0x03E00008].

(** [netif_receive_skb]: a [lw v1,16(a0)] followed by something else
    at words 2 and 3, then [lw v0,16(a0)] and [tne zero,v0,0xc] at words
    5 and 6. *)
Definition ex_netif_text : list Z :=
  [0x27BDFFE0; 0xAFBF001C; 0x8C830010; 0x00602025; 0xAFB00018;
   0x8C820010; 0x00020336; 0x00808025; 0x8FBF001C; 0x03E00008].

(** The same function with the trap already replaced by a [nop]. *)
Definition ex_netif_text_patched : list Z :=
  [0x27BDFFE0; 0xAFBF001C; 0x8C830010; 0x00602025; 0xAFB00018;
   0x8C820010; 0x00000000; 0x00808025; 0x8FBF001C; 0x03E00008].

Definition ex_mem : memory :=
  mem_of_words 0x80100000 ex_ip_forward_text
    (mem_of_words 0x80200000 ex_netif_text ex_blank).

Definition ex_mem_patched : memory :=
  mem_of_words 0x80100000 ex_ip_forward_text
    (mem_of_words 0x80200000 ex_netif_text_patched ex_blank).

(** ** Passes over the table

    The module runs one apply pass when it is loaded and one reverse
    pass when it is removed; [run_passes] runs any sequence of them. *)

Inductive pass : Type := ApplyPass | ReversePass.

Definition run_pass (lookup : string -> Z) (ph : pass)
    (t : list patchEntry) (m : memory) : list patchEntry * memory :=
  match ph with
  | ApplyPass =>
      let r := yf_patchkernel_patch lookup t m in (res_val r, res_mem r)
  | ReversePass => fst (yf_patchkernel_restore t m)
  end.

Fixpoint run_passes (lookup : string -> Z) (phs : list pass)
    (t : list patchEntry) (m : memory) : list patchEntry * memory :=
  match phs with
  | [] => (t, m)
  | ph :: rest =>
      let tm := run_pass lookup ph t m in
      run_passes lookup rest (fst tm) (snd tm)
  end.

(** The words an iteration at [ptr] may read: the one at [ptr], the one
    at [ptr + patchOffset], and the one at [ptr + verifyOffset] when a
    verification is configured. *)
Definition touches (p : patchEntry) (ptr a : Z) : Prop :=
  a = ptr \/ a = ptr_add ptr (patchOffset p) \/
  (verifyOffset p <> 0 /\ a = ptr_add ptr (verifyOffset p)).



(** Every word read lies at a position of the window. *)
Definition reads_within_window (lookup : string -> Z) (p : patchEntry)
    (c : Z) (m : memory) : Prop :=
  forall a, In a (reads_of (res_events (patch_entry lookup p c m))) ->
  exists j : nat,
    (j < Z.to_nat (maxOffset p))%nat /\
    a = window_pos (lookup (fname p)) p j.

(** [netif_receive_skb] with a [nop] after the first [lw]. *)
Definition ex_netif_text_nop : list Z :=
  [0x27BDFFE0; 0xAFBF001C; 0x8C830010; 0x00000000; 0xAFB00018;
   0x8C820010; 0x00020336; 0x00808025; 0x8FBF001C; 0x03E00008].

Definition ex_mem_nop : memory :=
  mem_of_words 0x80100000 ex_ip_forward_text
    (mem_of_words 0x80200000 ex_netif_text_nop ex_blank).

(** The reverser as C4 words it: the flag and the stored results are
    cleared, that is, back to the zeroes of the static table. *)
Definition restore_clears_results (p : patchEntry) (m : memory) : Prop :=
  isPatched p <> 0 ->
  let q := fst (fst (restore_entry p m)) in
  isPatched q = 0 /\ patchAddress q = 0 /\ originalValue q = 0.

(** [netif_receive_skb] as the apply pass leaves it in [ex_mem]. *)
Definition ex_netif_applied : patchEntry :=
  res_val (patch_entry ex_lookup ex_netif 0 ex_mem).

Definition ex_mem_applied : memory :=
  res_mem (patch_entry ex_lookup ex_netif 0 ex_mem).

(** ** What happens to a descriptor in an apply pass

    [None] when the symbol is not resolved, else what the scanner of the
    design reports for the descriptor's window. *)
Definition outcome (lookup : string -> Z) (p : patchEntry) (m : memory)
    : option scanResult :=
  if lookup (fname p) =? 0 then None
  else Some (scanner p m (Z.to_nat (maxOffset p))
               (ptr_add (lookup (fname p)) (startOffset p))).

(** The line printed after the loop when the descriptor is not
    patched. *)
Definition no_instruction (p : patchEntry) : list message :=
  if isPatched p =? 0 then [MsgNoInstruction (fname p)] else [].

(** ** The life of one descriptor

    A descriptor takes its turn in apply passes and reverse passes; the
    counter and the memory it meets at each turn are whatever the rest
    of the system has made of them. *)
Inductive turn : Type :=
| TurnApply (patches_applied : Z) (m : memory)
| TurnReverse (m : memory).

Definition do_turn (lookup : string -> Z) (t : turn) (p : patchEntry)
    : patchEntry * list event :=
  match t with
  | TurnApply c m =>
      let r := patch_entry lookup p c m in (res_val r, res_events r)
  | TurnReverse m =>
      let r := restore_entry p m in (fst (fst r), snd r)
  end.

Fixpoint lifecycle (lookup : string -> Z) (ts : list turn) (p : patchEntry)
    : patchEntry * list event :=
  match ts with
  | [] => (p, [])
  | t :: rest =>
      let r := do_turn lookup t p in
      let r' := lifecycle lookup rest (fst r) in
      (fst r', snd r ++ snd r')
  end.

(** The application in force according to the printed lines: the
    address and original value of the last replacement printed, unless
    a reversal was printed after it. *)
Fixpoint in_force (log : list message) (cur : option (Z * Z))
    : option (Z * Z) :=
  match log with
  | [] => cur
  | MsgReplaced original addr _ :: rest => in_force rest (Some (addr, original))
  | MsgReversed _ _ _ :: rest => in_force rest None
  | _ :: rest => in_force rest cur
  end.

(** The flag is set exactly when an application is in force, and then
    the result fields hold its data. *)
Definition flag_tells (p : patchEntry) (cur : option (Z * Z)) : Prop :=
  (isPatched p <> 0 <-> cur <> None) /\
  (forall a v, cur = Some (a, v) ->
     patchAddress p = a /\ originalValue p = v).

(** The result fields of a descriptor nobody has touched. *)
Definition unset (p : patchEntry) : Prop :=
  startAddress p = 0 /\ patchAddress p = 0 /\ originalValue p = 0 /\
  isPatched p = 0.

(** The round trip as C6 words it, for the descriptor [p0] standing
    between [l1] and [l2] in the table: once applied, the word at its
    recorded patch address is, after the reverse pass, the original value
    it recorded. *)
Definition round_trip_holds (lookup : string -> Z)
    (l1 l2 : list patchEntry) (p0 : patchEntry) (m : memory) : Prop :=
  let r1 := patch_loop lookup l1 0 m in
  let p := res_val (patch_entry lookup p0 (res_count r1) (res_mem r1)) in
  let r := yf_patchkernel_patch lookup (l1 ++ p0 :: l2) m in
  let back := yf_patchkernel_restore (res_val r) (res_mem r) in
  isPatched p0 = 0 -> isPatched p <> 0 ->
  snd (fst back) (patchAddress p) = originalValue p.

(** A second descriptor for [ip_forward], which looks for the very
    instruction the first one stores, [addiu v0,zero,0], and replaces it
    by [addiu v0,zero,1]. *)
Definition ex_second : patchEntry :=
  mkPatchEntry "ip_forward" 0 0 10 0x24020000 0xFFFFFFFF 0
    0 0 0 0 0 0x24020001 0 0 0.

(** ** Counting *)

(** The patch addresses of the descriptors whose flag is set. *)
Definition patched_addresses (l : list patchEntry) : list Z :=
  map patchAddress (filter (fun q => negb (isPatched q =? 0)) l).

(** M: the descriptors whose symbol resolves. *)
Definition resolvable (lookup : string -> Z) (ps : list patchEntry) : nat :=
  List.length (filter (fun p => negb (lookup (fname p) =? 0)) ps).

(** K: the descriptors whose symbol resolves and whose window, in the
    memory the pass has produced when their turn comes, holds a
    position that passes the search comparison and the verification. *)
Fixpoint matching (lookup : string -> Z) (ps : list patchEntry)
    (c : Z) (m : memory) : nat :=
  match ps with
  | [] => O
  | p :: rest =>
      let rp := patch_entry lookup p c m in
      let here : nat :=
        if negb (lookup (fname p) =? 0)
           && has_match p m (Z.to_nat (maxOffset p))
                (ptr_add (lookup (fname p)) (startOffset p))
        then 1%nat else 0%nat in
      (here + matching lookup rest (res_count rp) (res_mem rp))%nat
  end.

(** The patches a run has applied, one write each, and the
    descriptors it has reported as already patched. *)
Definition applied_count (evs : list event) : nat :=
  List.length (writes_of evs).

Definition is_found_patched (i : message) : bool :=
  match i with MsgFoundPatched _ _ => true | _ => false end.

Definition already_count (evs : list event) : nat :=
  List.length (filter is_found_patched (infos_of evs)).

(** ** Further vocabulary *)

(** The descriptors with the flag set. *)
Definition flagged (l : list patchEntry) : list patchEntry :=
  filter (fun q => negb (isPatched q =? 0)) l.

(** A descriptor [q] cannot patch a word that holds the value [v]:
    either [v] is its own [patchValue], and its guard stops at that
    word, or it verifies the very word it patches and [v] does not pass
    that verification. *)
Definition cannot_repatch (v : Z) (q : patchEntry) : Prop :=
  patchValue q = v \/
  (verifyOffset q <> 0 /\ verifyOffset q = patchOffset q /\
   masked v (verifyAndMask q) (verifyOrMask q) <> verifyValue q).

(** No descriptor of the table can patch a word that an earlier one has
    patched. *)
Definition independent (ps : list patchEntry) : Prop :=
  ForallOrdPairs (fun p q => cannot_repatch (patchValue p) q) ps.

(** The descriptor with another verification value and masks. *)
Definition set_verification (p : patchEntry) (value and_mask or_mask : Z)
    : patchEntry :=
  mkPatchEntry (fname p) (startAddress p) (startOffset p) (maxOffset p)
    (lookFor p) (andMask p) (orMask p) (verifyOffset p) value
    and_mask or_mask (patchOffset p) (patchValue p)
    (patchAddress p) (originalValue p) (isPatched p).

(** The original value recorded for address [a] by the last flagged
    descriptor of [l] whose patch address is [a], if there is one. *)
Fixpoint last_original (l : list patchEntry) (a : Z) (found : option Z)
    : option Z :=
  match l with
  | [] => found
  | q :: rest =>
      last_original rest a
        (if negb (isPatched q =? 0) && (patchAddress q =? a)
         then Some (originalValue q) else found)
  end.

(** ** The application in force, told without the result fields

    [turn_effect] and [applications] follow a descriptor through its
    turns using only its configuration and the memory each turn meets.
    An apply turn in whose window the scanner reports a candidate makes
    the application in force the word [patchOffset] words after the
    candidate, with the content that word has in the memory of the
    turn; any other apply turn leaves what is in force; a reverse turn
    ends it. *)
Definition turn_effect (lookup : string -> Z) (p : patchEntry) (t : turn)
    (cur : option (Z * Z)) : option (Z * Z) :=
  match t with
  | TurnApply _ m =>
      match outcome lookup p m with
      | Some (Found a) =>
          Some (ptr_add a (patchOffset p), m (ptr_add a (patchOffset p)))
      | _ => cur
      end
  | TurnReverse _ => None
  end.

Fixpoint applications (lookup : string -> Z) (p : patchEntry)
    (ts : list turn) (cur : option (Z * Z)) : option (Z * Z) :=
  match ts with
  | [] => cur
  | t :: rest => applications lookup p rest (turn_effect lookup p t cur)
  end.

(** An apply turn with counter [c] in memory [m] is a successful
    application of [p] at the word [A], whose content was [v]: the
    symbol resolves; [A] lies [patchOffset] words after a position of
    the window that passes both comparisons, the first to do so, with no
    position up to it stopped by the guard; [v] is what [m] holds at [A];
    and the turn, run on any descriptor with the configuration of [p],
    writes [patchValue] to [A] and nothing else. *)
Definition successful_application (lookup : string -> Z) (p : patchEntry)
    (c : Z) (m : memory) (A v : Z) : Prop :=
  lookup (fname p) <> 0 /\
  exists j : nat,
    (j < Z.to_nat (maxOffset p))%nat /\
    A = ptr_add (window_pos (lookup (fname p)) p j) (patchOffset p) /\
    v = m A /\
    hit p m (window_pos (lookup (fname p)) p j) = true /\
    (forall i, (i <= j)%nat ->
       already p m (window_pos (lookup (fname p)) p i) = false) /\
    (forall i, (i < j)%nat ->
       hit p m (window_pos (lookup (fname p)) p i) = false) /\
    (forall q, same_config p q ->
       res_mem (patch_entry lookup q c m) = store m A (patchValue p) /\
       writes_of (res_events (patch_entry lookup q c m)) =
         [(A, patchValue p)]).

(** ** Counting matches in the memory the pass is given

    K as C8 words it: the descriptors whose symbol resolves and whose
    window holds a match in the memory handed to the apply pass. *)
Definition matching_given (lookup : string -> Z) (ps : list patchEntry)
    (m : memory) : nat :=
  List.length
    (filter
       (fun p =>
          negb (lookup (fname p) =? 0)
          && has_match p m (Z.to_nat (maxOffset p))
               (ptr_add (lookup (fname p)) (startOffset p)))
       ps).

Definition count_bounded_on_given_memory (lookup : string -> Z)
    (ps : list patchEntry) (m : memory) : Prop :=
  res_count (yf_patchkernel_patch lookup ps m) <=
  Z.of_nat (Nat.min (resolvable lookup ps) (matching_given lookup ps m)).

(** * Basic facts *)

Lemma emit_emit (a b : list event) (r : run) :
  emit a (emit b r) = emit (a ++ b) r.
Proof. unfold emit; simpl. now rewrite app_assoc. Qed.

Lemma emit_nil (r : run) : emit [] r = r.
Proof. now destruct r. Qed.

Lemma ptr_add_ptr_add (p a b : Z) :
  ptr_add (ptr_add p a) b = ptr_add p (a + b).
Proof.
  unfold ptr_add. rewrite Zplus_mod_idemp_l. f_equal. lia.
Qed.

Lemma pos_ptr_add (b s : Z) (j : nat) :
  pos (ptr_add b s) j = ptr_add b (s + Z.of_nat j).
Proof.
  revert s. induction j as [|j IH]; intros s.
  - simpl. f_equal. lia.
  - cbn [pos]. rewrite ptr_add_ptr_add, IH. f_equal. lia.
Qed.

Lemma pos_S (ptr : Z) (j : nat) : pos ptr (S j) = ptr_add (pos ptr j) 1.
Proof.
  revert ptr. induction j as [|j IH]; intros ptr; [reflexivity|].
  cbn [pos] in *. now rewrite IH.
Qed.

Lemma store_same (m : memory) (a v : Z) : store m a v a = v.
Proof. unfold store. now rewrite Z.eqb_refl. Qed.

Lemma store_other (m : memory) (a v a' : Z) :
  a' <> a -> store m a v a' = m a'.
Proof. unfold store. intros H. apply Z.eqb_neq in H. now rewrite H. Qed.

(** ** One iteration of the loop *)

Lemma scan_already (n : nat) (ptr : Z) (p : patchEntry) (c : Z) (m : memory) :
  already p m ptr = true ->
  scan (S n) ptr p c m = ((p, c, m), already_events p m ptr).
Proof.
  unfold already. intros H. cbn [scan]. now rewrite H.
Qed.

Lemma scan_hit (n : nat) (ptr : Z) (p : patchEntry) (c : Z) (m : memory) :
  already p m ptr = false -> hit p m ptr = true ->
  scan (S n) ptr p c m =
  ((applied_entry p m ptr, (c + 1) mod 2 ^ 32,
    store m (ptr_add ptr (patchOffset p)) (patchValue p)),
   hit_events p m ptr).
Proof.
  unfold already, hit, primary, verified. intros Ha Hh.
  apply andb_true_iff in Hh as [Hp Hv].
  cbn [scan]. rewrite Ha, Hp.
  replace (negb (verifyOffset p =? 0) &&
           negb (masked (m (ptr_add ptr (verifyOffset p)))
                   (verifyAndMask p) (verifyOrMask p) =? verifyValue p))
    with false.
  2:{ symmetry. rewrite <- negb_orb. now rewrite Hv. }
  cbn [patchAddress set_patchAddress set_originalValue set_isPatched
       patchValue originalValue].
  now rewrite store_same.
Qed.

Lemma scan_miss (n : nat) (ptr : Z) (p : patchEntry) (c : Z) (m : memory) :
  already p m ptr = false -> hit p m ptr = false ->
  scan (S n) ptr p c m =
  emit (miss_events p m ptr) (scan n (ptr_add ptr 1) p c m).
Proof.
  unfold miss_events, verify_reads, guard_reads.
  unfold already, hit, primary, verified. intros Ha Hh.
  cbn [scan]. rewrite Ha.
  destruct (masked (m ptr) (andMask p) (orMask p) =? lookFor p).
  - cbn [andb] in Hh. rewrite <- negb_orb, Hh. reflexivity.
  - now rewrite app_nil_r.
Qed.

(** ** Several iterations *)

Lemma scan_skip (p : patchEntry) (c : Z) (m : memory) (i n : nat) :
  forall ptr,
  (forall j, (j < i)%nat ->
     already p m (pos ptr j) = false /\ hit p m (pos ptr j) = false) ->
  scan (i + n) ptr p c m =
  emit (skip_events p m i ptr) (scan n (pos ptr i) p c m).
Proof.
  induction i as [|i IH]; intros ptr H.
  - cbn [Nat.add skip_events pos]. now rewrite emit_nil.
  - destruct (H O) as [Ha Hh]; [lia|]. cbn [pos] in Ha, Hh.
    cbn [Nat.add]. rewrite scan_miss by assumption.
    rewrite IH.
    + now rewrite emit_emit.
    + intros j Hj. apply (H (S j)). lia.
Qed.

Lemma scanner_step (p : patchEntry) (m : memory) (n : nat) (ptr : Z) :
  scanner p m (S n) ptr =
  if already p m ptr then AlreadyApplied (ptr_add ptr (patchOffset p))
  else if hit p m ptr then Found ptr
  else scanner p m n (ptr_add ptr 1).
Proof.
  cbn [scanner]. unfold already, hit, primary, verified, matches, masked.
  destruct (m (ptr_add ptr (patchOffset p)) =? patchValue p); [reflexivity|].
  destruct (Z.lor (Z.land (m ptr) (andMask p)) (orMask p) =? lookFor p);
    [|reflexivity].
  cbn [andb]. destruct (verifyOffset p =? 0); [reflexivity|].
  cbn [orb]. reflexivity.
Qed.

(** What [scan] leaves behind is decided by what [scanner] reports. *)
Lemma scan_refines (p : patchEntry) (c : Z) (m : memory) (n : nat) :
  forall ptr,
  fst (scan n ptr p c m) =
  match scanner p m n ptr with
  | Found a =>
      (applied_entry p m a, (c + 1) mod 2 ^ 32,
       store m (ptr_add a (patchOffset p)) (patchValue p))
  | _ => (p, c, m)
  end.
Proof.
  induction n as [|n IH]; intros ptr; [reflexivity|].
  rewrite scanner_step.
  destruct (already p m ptr) eqn:Ha.
  - now rewrite scan_already.
  - destruct (hit p m ptr) eqn:Hh.
    + now rewrite scan_hit.
    + rewrite scan_miss by assumption. cbn [emit fst]. apply IH.
Qed.

Lemma scanner_found_has_match (p : patchEntry) (m : memory) (n : nat) :
  forall ptr a, scanner p m n ptr = Found a -> has_match p m n ptr = true.
Proof.
  induction n as [|n IH]; intros ptr a; [discriminate|].
  rewrite scanner_step. cbn [has_match].
  destruct (already p m ptr); [discriminate|].
  destruct (hit p m ptr); [reflexivity|].
  intros H. cbn [orb]. eauto.
Qed.

(** The writes of [scan]: one when it patches, none otherwise. *)
Lemma writes_of_app (a b : list event) :
  writes_of (a ++ b) = writes_of a ++ writes_of b.
Proof. apply flat_map_app. Qed.

Lemma reads_of_app (a b : list event) :
  reads_of (a ++ b) = reads_of a ++ reads_of b.
Proof. apply flat_map_app. Qed.

Lemma infos_of_app (a b : list event) :
  infos_of (a ++ b) = infos_of a ++ infos_of b.
Proof. apply flat_map_app. Qed.

Lemma writes_of_info (i : message) (l : list event) :
  writes_of (EvInfo i :: l) = writes_of l.
Proof. reflexivity. Qed.

Lemma writes_of_miss (p : patchEntry) (m : memory) (ptr : Z) :
  writes_of (miss_events p m ptr) = [].
Proof.
  unfold miss_events, verify_reads, guard_reads.
  destruct (primary p m ptr), (negb (verifyOffset p =? 0)); reflexivity.
Qed.

Lemma infos_of_miss (p : patchEntry) (m : memory) (ptr : Z) :
  infos_of (miss_events p m ptr) = [].
Proof.
  unfold miss_events, verify_reads, guard_reads.
  destruct (primary p m ptr), (negb (verifyOffset p =? 0)); reflexivity.
Qed.

Lemma writes_of_skip (p : patchEntry) (m : memory) (i : nat) :
  forall ptr, writes_of (skip_events p m i ptr) = [].
Proof.
  induction i as [|i IH]; intros ptr; [reflexivity|].
  cbn [skip_events]. now rewrite writes_of_app, writes_of_miss, IH.
Qed.

Lemma infos_of_skip (p : patchEntry) (m : memory) (i : nat) :
  forall ptr, infos_of (skip_events p m i ptr) = [].
Proof.
  induction i as [|i IH]; intros ptr; [reflexivity|].
  cbn [skip_events]. now rewrite infos_of_app, infos_of_miss, IH.
Qed.

Lemma writes_of_already (p : patchEntry) (m : memory) (ptr : Z) :
  writes_of (already_events p m ptr) = [].
Proof. reflexivity. Qed.

Lemma writes_of_hit (p : patchEntry) (m : memory) (ptr : Z) :
  writes_of (hit_events p m ptr) =
  [(ptr_add ptr (patchOffset p), patchValue p)].
Proof.
  unfold hit_events, verify_reads, guard_reads.
  destruct (negb (verifyOffset p =? 0)); reflexivity.
Qed.

Lemma scan_writes (p : patchEntry) (c : Z) (m : memory) (n : nat) :
  forall ptr,
  writes_of (snd (scan n ptr p c m)) =
  match scanner p m n ptr with
  | Found a => [(ptr_add a (patchOffset p), patchValue p)]
  | _ => []
  end.
Proof.
  induction n as [|n IH]; intros ptr; [reflexivity|].
  rewrite scanner_step.
  destruct (already p m ptr) eqn:Ha.
  - now rewrite scan_already.
  - destruct (hit p m ptr) eqn:Hh.
    + rewrite scan_hit by assumption. apply writes_of_hit.
    + rewrite scan_miss by assumption. cbn [emit snd].
      now rewrite writes_of_app, writes_of_miss, IH.
Qed.

Lemma pos_window (base : Z) (p : patchEntry) (j : nat) :
  pos (ptr_add base (startOffset p)) j = window_pos base p j.
Proof. apply pos_ptr_add. Qed.

Lemma res_val_mk {A : Type} (v : A) (c : Z) (m : memory) (e : list event) :
  res_val ((v, c, m), e) = v.
Proof. reflexivity. Qed.

Lemma res_count_mk {A : Type} (v : A) (c : Z) (m : memory) (e : list event) :
  res_count ((v, c, m), e) = c.
Proof. reflexivity. Qed.

Lemma res_mem_mk {A : Type} (v : A) (c : Z) (m : memory) (e : list event) :
  res_mem ((v, c, m), e) = m.
Proof. reflexivity. Qed.

Lemma res_events_mk {A : Type} (v : A) (c : Z) (m : memory)
    (e : list event) :
  res_events ((v, c, m), e) = e.
Proof. reflexivity. Qed.

(** ** The body of the [while] loop *)

Lemma patch_entry_unresolved (lookup : string -> Z) (p : patchEntry)
    (c : Z) (m : memory) :
  lookup (fname p) = 0 ->
  patch_entry lookup p c m =
  ((p, c, m), [EvInfo (MsgUnableToLocate (fname p))]).
Proof. intros H. unfold patch_entry. now rewrite H. Qed.

Lemma patch_entry_resolved (lookup : string -> Z) (p : patchEntry)
    (c : Z) (m : memory) :
  lookup (fname p) <> 0 ->
  patch_entry lookup p c m =
  let base := lookup (fname p) in
  let r := scan (Z.to_nat (maxOffset p)) (ptr_add base (startOffset p))
             (set_startAddress p base) c m in
  (fst r,
   EvInfo (MsgPatching (fname p) base) :: snd r ++
   if isPatched (res_val r) =? 0
   then [EvInfo (MsgNoInstruction (fname (res_val r)))] else []).
Proof.
  intros H. unfold patch_entry. apply Z.eqb_neq in H. rewrite H.
  reflexivity.
Qed.

Lemma patch_loop_cons (lookup : string -> Z) (p : patchEntry)
    (l : list patchEntry) (c : Z) (m : memory) :
  patch_loop lookup (p :: l) c m =
  let rp := patch_entry lookup p c m in
  let r := patch_loop lookup l (res_count rp) (res_mem rp) in
  ((res_val rp :: res_val r, res_count r, res_mem r),
   res_events rp ++ res_events r).
Proof. reflexivity. Qed.

Lemma patch_loop_app (lookup : string -> Z) (l1 l2 : list patchEntry) :
  forall c m,
  patch_loop lookup (l1 ++ l2) c m =
  let r1 := patch_loop lookup l1 c m in
  let r2 := patch_loop lookup l2 (res_count r1) (res_mem r1) in
  ((res_val r1 ++ res_val r2, res_count r2, res_mem r2),
   res_events r1 ++ res_events r2).
Proof.
  induction l1 as [|p l1 IH]; intros c m.
  - cbn [app patch_loop]. unfold res_val, res_count, res_mem, res_events.
    cbn [fst snd app]. now destruct (patch_loop lookup l2 c m) as [[[? ?] ?] ?].
  - cbn [app]. rewrite !patch_loop_cons. cbv zeta. rewrite IH. cbv zeta.
    unfold res_val, res_count, res_mem, res_events. cbn [fst snd app].
    now rewrite app_assoc.
Qed.

(** The pass, seen from one of its descriptors: the entries before
    it, its own turn, the entries after it. *)
Lemma patch_loop_middle (lookup : string -> Z) (l1 l2 : list patchEntry)
    (p : patchEntry) (c : Z) (m : memory) :
  patch_loop lookup (l1 ++ p :: l2) c m =
  let r1 := patch_loop lookup l1 c m in
  let rp := patch_entry lookup p (res_count r1) (res_mem r1) in
  let r2 := patch_loop lookup l2 (res_count rp) (res_mem rp) in
  ((res_val r1 ++ res_val rp :: res_val r2, res_count r2, res_mem r2),
   res_events r1 ++ res_events rp ++ res_events r2).
Proof.
  rewrite patch_loop_app. cbv zeta. rewrite patch_loop_cons. reflexivity.
Qed.

Lemma patch_loop_Forall2 (lookup : string -> Z)
    (R : patchEntry -> patchEntry -> Prop) :
  (forall p c m, R p (res_val (patch_entry lookup p c m))) ->
  forall l c m, Forall2 R l (res_val (patch_loop lookup l c m)).
Proof.
  intros H l. induction l as [|p l IH]; intros c m.
  - constructor.
  - rewrite patch_loop_cons. constructor; [apply H | apply IH].
Qed.

Lemma restore_Forall2 (R : patchEntry -> patchEntry -> Prop) :
  (forall p m, R p (fst (fst (restore_entry p m)))) ->
  forall l m, Forall2 R l (fst (fst (yf_patchkernel_restore l m))).
Proof.
  intros H l. induction l as [|p l IH]; intros m.
  - constructor.
  - cbn [yf_patchkernel_restore fst]. constructor; [apply H | apply IH].
Qed.

(** [scan] changes no field of the descriptor but the three results of
    a patch. *)
Lemma scan_startAddress (p : patchEntry) (c : Z) (m : memory) (n : nat)
    (ptr : Z) :
  startAddress (res_val (scan n ptr p c m)) = startAddress p.
Proof.
  unfold res_val. rewrite scan_refines.
  now destruct (scanner p m n ptr).
Qed.

Lemma scan_same_config (p : patchEntry) (c : Z) (m : memory) (n : nat)
    (ptr : Z) :
  same_config p (res_val (scan n ptr p c m)).
Proof.
  unfold res_val. rewrite scan_refines.
  destruct (scanner p m n ptr); repeat split.
Qed.

Lemma patch_entry_same_config (lookup : string -> Z) (p : patchEntry)
    (c : Z) (m : memory) :
  same_config p (res_val (patch_entry lookup p c m)).
Proof.
  destruct (Z.eq_dec (lookup (fname p)) 0) as [H|H].
  - rewrite patch_entry_unresolved by assumption. repeat split.
  - rewrite patch_entry_resolved by assumption. cbv zeta.
    unfold res_val at 1. cbn [fst].
    apply (scan_same_config (set_startAddress p (lookup (fname p)))).
Qed.

(** * The claims *)

(** ** Unresolvable symbols *)

(** C9.  A descriptor whose symbol the kernel does not know is skipped:
    the pass leaves the descriptor as it was, its turn writes nothing
    (its only event is the diagnostic), the counter goes on to the
    following descriptors unchanged, and they are processed as usual.
    The pass then returns the same count and leaves the same memory as
    it would without that descriptor.  The function is total, and the
    module's initialisation returns [0] to the kernel all the same: there
    is no error for the caller to see. *)
Theorem C9_unresolved_symbol_is_skipped (lookup : string -> Z)
    (l1 l2 : list patchEntry) (p : patchEntry) (m : memory) :
  lookup (fname p) = 0 ->
  let r1 := patch_loop lookup l1 0 m in
  let r2 := patch_loop lookup l2 (res_count r1) (res_mem r1) in
  let r := yf_patchkernel_patch lookup (l1 ++ p :: l2) m in
  let r' := yf_patchkernel_patch lookup (l1 ++ l2) m in
  res_val r = res_val r1 ++ p :: res_val r2 /\
  res_events r =
    res_events r1 ++ [EvInfo (MsgUnableToLocate (fname p))] ++ res_events r2 /\
  res_count r = res_count r2 /\
  res_mem r = res_mem r2 /\
  res_val r' = res_val r1 ++ res_val r2 /\
  res_count r = res_count r' /\
  res_mem r = res_mem r' /\
  writes_of (res_events r) = writes_of (res_events r') /\
  forall c0,
    fst (fst (fst
      (yf_patchkernel_init lookup (mkModule (l1 ++ p :: l2) c0) m))) = 0.
Proof.
  intros H r1 r2 r r'. subst r r' r2 r1. unfold yf_patchkernel_patch.
  rewrite patch_loop_middle, patch_loop_app. cbv zeta.
  rewrite patch_entry_unresolved by assumption.
  unfold res_val, res_count, res_mem, res_events. cbn [fst snd].
  repeat split.
  rewrite !writes_of_app. reflexivity.
Qed.

Lemma C9_unresolved_symbol_is_skipped_witness :
  ex_lookup (fname ex_netif2) = 0 /\
  res_count (yf_patchkernel_patch ex_lookup
               ([ex_ip_forward; ex_netif] ++ ex_netif2 :: []) ex_mem) =
  res_count (yf_patchkernel_patch ex_lookup
               ([ex_ip_forward; ex_netif] ++ []) ex_mem).
Proof.
  split; [reflexivity|].
  exact (proj1 (proj2 (proj2 (proj2 (proj2 (proj2
           (C9_unresolved_symbol_is_skipped ex_lookup
              [ex_ip_forward; ex_netif] [] ex_netif2 ex_mem eq_refl))))))).
Defined.

(** ** The descriptor's turn, by what the scan meets *)

Lemma scan_set_startAddress (p : patchEntry) (b c : Z) (m : memory)
    (n : nat) :
  forall ptr,
  scan n ptr (set_startAddress p b) c m =
  let r := scan n ptr p c m in
  ((set_startAddress (res_val r) b, res_count r, res_mem r), res_events r).
Proof.
  induction n as [|n IH]; intros ptr; [reflexivity|].
  destruct (already p m ptr) eqn:Ha.
  - rewrite !scan_already by exact Ha. reflexivity.
  - destruct (hit p m ptr) eqn:Hh.
    + rewrite !scan_hit by assumption. reflexivity.
    + rewrite (scan_miss n ptr p) by assumption.
      rewrite (scan_miss n ptr (set_startAddress p b)) by assumption.
      rewrite IH. reflexivity.
Qed.

Lemma patch_entry_scan (lookup : string -> Z) (p : patchEntry)
    (c : Z) (m : memory) :
  lookup (fname p) <> 0 ->
  patch_entry lookup p c m =
  let base := lookup (fname p) in
  let r := scan (Z.to_nat (maxOffset p)) (ptr_add base (startOffset p))
             p c m in
  ((set_startAddress (res_val r) base, res_count r, res_mem r),
   EvInfo (MsgPatching (fname p) base) :: res_events r ++
   if isPatched (res_val r) =? 0
   then [EvInfo (MsgNoInstruction (fname p))] else []).
Proof.
  intros H. rewrite patch_entry_resolved by assumption. cbv zeta.
  rewrite scan_set_startAddress. cbv zeta.
  destruct (scan_same_config p c m (Z.to_nat (maxOffset p))
              (ptr_add (lookup (fname p)) (startOffset p))) as [Hn _].
  set (r := scan _ _ p c m) in *.
  unfold res_val, res_count, res_mem, res_events in *.
  cbn [fst snd fname set_startAddress isPatched]. rewrite Hn. reflexivity.
Qed.

Lemma scan_reaches_already (p : patchEntry) (c : Z) (m : memory)
    (i n : nat) (ptr : Z) :
  (forall j, (j < i)%nat ->
     already p m (pos ptr j) = false /\ hit p m (pos ptr j) = false) ->
  already p m (pos ptr i) = true ->
  scan (i + S n) ptr p c m =
  ((p, c, m), skip_events p m i ptr ++ already_events p m (pos ptr i)).
Proof.
  intros Hs Ha. rewrite scan_skip by assumption.
  rewrite scan_already by assumption. reflexivity.
Qed.

Lemma scan_reaches_hit (p : patchEntry) (c : Z) (m : memory)
    (i n : nat) (ptr : Z) :
  (forall j, (j < i)%nat ->
     already p m (pos ptr j) = false /\ hit p m (pos ptr j) = false) ->
  already p m (pos ptr i) = false -> hit p m (pos ptr i) = true ->
  scan (i + S n) ptr p c m =
  ((applied_entry p m (pos ptr i), (c + 1) mod 2 ^ 32,
    store m (ptr_add (pos ptr i) (patchOffset p)) (patchValue p)),
   skip_events p m i ptr ++ hit_events p m (pos ptr i)).
Proof.
  intros Hs Ha Hh. rewrite scan_skip by assumption.
  rewrite scan_hit by assumption. reflexivity.
Qed.

Lemma fuel_split (z : Z) (i : nat) :
  (i < Z.to_nat z)%nat -> Z.to_nat z = (i + S (Z.to_nat z - S i))%nat.
Proof. lia. Qed.

(** ** The already-applied guard *)

(** C1.  When the scan of a descriptor reaches a position of its window
    (no earlier position ended the loop) and the word at that position
    plus [patchOffset] holds [patchValue], the loop ends there, whatever
    the search comparison would say at that position: the last words
    read are the two of that iteration, the diagnostic for an already
    patched instruction is printed, nothing is written, the descriptor
    keeps [isPatched = 0] and its result fields, and the counter handed
    to the following descriptors is the one received. *)
Theorem C1_already_applied_guard (lookup : string -> Z)
    (l1 l2 : list patchEntry) (p : patchEntry) (m : memory) (i : nat) :
  let r1 := patch_loop lookup l1 0 m in
  let m1 := res_mem r1 in
  let base := lookup (fname p) in
  base <> 0 ->
  isPatched p = 0 ->
  (i < Z.to_nat (maxOffset p))%nat ->
  (forall j, (j < i)%nat ->
     already p m1 (window_pos base p j) = false /\
     hit p m1 (window_pos base p j) = false) ->
  m1 (ptr_add (window_pos base p i) (patchOffset p)) = patchValue p ->
  let rp := patch_entry lookup p (res_count r1) m1 in
  let r2 := patch_loop lookup l2 (res_count r1) m1 in
  let r := yf_patchkernel_patch lookup (l1 ++ p :: l2) m in
  res_events rp =
    EvInfo (MsgPatching (fname p) base) ::
    skip_events p m1 i (window_pos base p 0) ++
    already_events p m1 (window_pos base p i) ++
    [EvInfo (MsgNoInstruction (fname p))] /\
  writes_of (res_events rp) = [] /\
  res_val rp = set_startAddress p base /\
  isPatched (res_val rp) = 0 /\
  res_count rp = res_count r1 /\
  res_mem rp = m1 /\
  res_val r = res_val r1 ++ set_startAddress p base :: res_val r2 /\
  res_count r = res_count r2 /\
  res_mem r = res_mem r2 /\
  res_events r = res_events r1 ++ res_events rp ++ res_events r2.
Proof.
  intros r1 m1 base Hb Hf Hi Hs Hg rp r2 r.
  assert (Hrp : rp =
    ((set_startAddress p base, res_count r1, m1),
     EvInfo (MsgPatching (fname p) base) ::
     (skip_events p m1 i (window_pos base p 0) ++
      already_events p m1 (window_pos base p i)) ++
     [EvInfo (MsgNoInstruction (fname p))])).
  { subst rp. rewrite patch_entry_scan by exact Hb. cbv zeta. fold base.
    rewrite (fuel_split _ _ Hi).
    rewrite <- (pos_window base p 0). cbn [pos].
    rewrite scan_reaches_already.
    - rewrite pos_window.
      unfold res_val, res_count, res_mem, res_events.
      cbn [fst snd]. rewrite Hf. reflexivity.
    - intros j Hj. rewrite pos_window. now apply Hs.
    - rewrite pos_window. unfold already. now apply Z.eqb_eq. }
  assert (Hr : r =
    ((res_val r1 ++ res_val rp :: res_val r2, res_count r2, res_mem r2),
     res_events r1 ++ res_events rp ++ res_events r2)).
  { subst r. unfold yf_patchkernel_patch. rewrite patch_loop_middle.
    cbv zeta. fold r1. fold m1. fold rp. subst r2. rewrite Hrp.
    reflexivity. }
  rewrite Hr. rewrite Hrp.
  unfold res_val, res_count, res_mem, res_events. cbn [fst snd].
  repeat split; try exact Hf.
  - now rewrite <- app_assoc.
  - rewrite writes_of_info, !writes_of_app, writes_of_skip,
      writes_of_already.
    reflexivity.
Qed.

Lemma C1_already_applied_guard_witness :
  ex_lookup (fname ex_netif) <> 0 /\
  isPatched ex_netif = 0 /\
  writes_of
    (res_events
       (patch_entry ex_lookup ex_netif
          (res_count (patch_loop ex_lookup [ex_ip_forward] 0 ex_mem_patched))
          (res_mem (patch_loop ex_lookup [ex_ip_forward] 0 ex_mem_patched))))
  = [].
Proof.
  split; [vm_compute; discriminate|]. split; [reflexivity|].
  apply (C1_already_applied_guard ex_lookup [ex_ip_forward] [ex_netif2]
           ex_netif ex_mem_patched 5).
  - vm_compute; discriminate.
  - reflexivity.
  - vm_compute; lia.
  - intros j Hj.
    destruct j as [|[|[|[|[|j]]]]]; [split; vm_compute; reflexivity .. | lia].
  - vm_compute; reflexivity.
Defined.

(** ** Verification and the first match *)

Lemma reads_of_skip_pos (p : patchEntry) (m : memory) (i : nat) :
  forall ptr j, (j < i)%nat ->
  In (pos ptr j) (reads_of (skip_events p m i ptr)).
Proof.
  induction i as [|i IH]; intros ptr j Hj; [lia|].
  cbn [skip_events]. rewrite reads_of_app. apply in_or_app.
  destruct j as [|j].
  - left. unfold miss_events, guard_reads. cbn. now left.
  - right. cbn [pos]. apply IH. lia.
Qed.

Lemma infos_of_hit (p : patchEntry) (m : memory) (ptr : Z) :
  infos_of (hit_events p m ptr) =
  [MsgReplaced (m (ptr_add ptr (patchOffset p)))
     (ptr_add ptr (patchOffset p)) (patchValue p)].
Proof.
  unfold hit_events, verify_reads, guard_reads.
  destruct (negb (verifyOffset p =? 0)); reflexivity.
Qed.

Lemma infos_of_already (p : patchEntry) (m : memory) (ptr : Z) :
  infos_of (already_events p m ptr) =
  [MsgFoundPatched (m (ptr_add ptr (patchOffset p)))
     (ptr_add ptr (patchOffset p))].
Proof. reflexivity. Qed.




(** What the code does on that input: it stops at position 2. *)
Lemma netif_nop_trace :
  primary ex_netif ex_mem_nop (window_pos 0x80200000 ex_netif 2) = true /\
  verified ex_netif ex_mem_nop (window_pos 0x80200000 ex_netif 2) = false /\
  infos_of (res_events (patch_entry ex_lookup ex_netif 0 ex_mem_nop)) =
    [MsgPatching "netif_receive_skb" 0x80200000;
     MsgFoundPatched 0 0x8020000C;
     MsgNoInstruction "netif_receive_skb"] /\
  reads_of (res_events (patch_entry ex_lookup ex_netif 0 ex_mem_nop)) =
    [0x80200000; 0x80200004; 0x80200004; 0x80200008;
     0x80200008; 0x8020000C].
Proof. repeat split; vm_compute; reflexivity. Qed.

(** ** The words the scan reads *)

Lemma reads_of_iteration (p : patchEntry) (m : memory) (ptr a : Z) :
  In a (reads_of (miss_events p m ptr)) \/
  In a (reads_of (already_events p m ptr)) \/
  In a (reads_of (hit_events p m ptr)) ->
  touches p ptr a.
Proof.
  unfold touches, miss_events, already_events, hit_events, verify_reads,
    guard_reads.
  destruct (verifyOffset p =? 0) eqn:Hv; cbn [negb];
    destruct (primary p m ptr); cbn; intros H;
    try apply Z.eqb_neq in Hv; intuition auto.
Qed.

Lemma scan_reads (p : patchEntry) (c : Z) (m : memory) (n : nat) :
  forall ptr a,
  In a (reads_of (res_events (scan n ptr p c m))) ->
  exists j, (j < n)%nat /\ touches p (pos ptr j) a.
Proof.
  induction n as [|n IH]; intros ptr a H; [destruct H|].
  destruct (already p m ptr) eqn:Ha.
  - rewrite scan_already in H by assumption.
    exists O. split; [lia|]. apply (reads_of_iteration p m). auto.
  - destruct (hit p m ptr) eqn:Hh.
    + rewrite scan_hit in H by assumption.
      exists O. split; [lia|]. apply (reads_of_iteration p m). auto.
    + rewrite scan_miss in H by assumption.
      unfold res_events, emit in H. cbn [snd] in H.
      rewrite reads_of_app in H. apply in_app_or in H as [H|H].
      * exists O. split; [lia|]. apply (reads_of_iteration p m). auto.
      * destruct (IH _ _ H) as (j & Hj & Ht).
        exists (S j). split; [lia | exact Ht].
Qed.

(** C3, amended.  Every scan position lies in the window
    [[startOffset, startOffset + maxOffset)] below the resolved base
    address, and every word the descriptor's turn reads is the word at
    such a position, or the word [patchOffset] words after one, or,
    when a verification is configured, the word [verifyOffset] words
    after one.  The last two may lie beyond the window's end. *)
Theorem C3_reads_stay_near_window (lookup : string -> Z) (p : patchEntry)
    (c : Z) (m : memory) (a : Z) :
  In a (reads_of (res_events (patch_entry lookup p c m))) ->
  exists j : nat,
    (j < Z.to_nat (maxOffset p))%nat /\
    touches p (window_pos (lookup (fname p)) p j) a.
Proof.
  intros H.
  destruct (Z.eq_dec (lookup (fname p)) 0) as [Hb|Hb].
  - rewrite patch_entry_unresolved in H by assumption. destruct H.
  - rewrite patch_entry_scan in H by assumption. cbv zeta in H.
    unfold res_events at 1 in H. cbn [snd] in H.
    change (reads_of (EvInfo ?i :: ?l)) with (reads_of l) in H.
    rewrite reads_of_app in H. apply in_app_or in H as [H|H].
    + destruct (scan_reads _ _ _ _ _ _ H) as (j & Hj & Ht).
      exists j. split; [exact Hj|]. now rewrite <- pos_window.
    + destruct (isPatched _ =? 0); destruct H.
Qed.

Lemma C3_reads_stay_near_window_witness :
  exists j : nat,
    (j < Z.to_nat (maxOffset ex_netif))%nat /\
    touches ex_netif (window_pos (ex_lookup (fname ex_netif)) ex_netif j)
      0x80200028.
Proof.
  apply (C3_reads_stay_near_window ex_lookup ex_netif 0 ex_blank).
  vm_compute. do 19 right. now left.
Defined.

(** C3 as stated fails.  In a memory where nothing matches, the scan of
    [netif_receive_skb] ([maxOffset = 10], [patchOffset = 1]) reads, at
    the last position of its window, the word at [base + 40]: position
    10, the first one past the window. *)
Lemma C3_counterexample :
  ~ reads_within_window ex_lookup ex_netif 0 ex_blank.
Proof.
  intros H. destruct (H 0x80200028) as (j & Hj & E).
  - vm_compute. do 19 right. now left.
  - change (Z.to_nat (maxOffset ex_netif)) with 10%nat in Hj.
    do 10 (destruct j as [|j]; [vm_compute in E; discriminate E|]).
    lia.
Qed.

(** ** The reverser *)

Lemma restore_entry_unpatched (p : patchEntry) (m : memory) :
  isPatched p = 0 -> restore_entry p m = ((p, m), []).
Proof. intros H. unfold restore_entry. now rewrite H. Qed.

Lemma restore_entry_patched (p : patchEntry) (m : memory) :
  isPatched p <> 0 ->
  restore_entry p m =
  ((set_isPatched p 0, store m (patchAddress p) (originalValue p)),
   [EvWrite (patchAddress p) (originalValue p);
    EvInfo (MsgReversed (fname p) (patchAddress p) (originalValue p))]).
Proof.
  intros H. unfold restore_entry. apply Z.eqb_neq in H. now rewrite H.
Qed.

Lemma restore_unpatched (l : list patchEntry) (m : memory) :
  Forall (fun p => isPatched p = 0) l ->
  yf_patchkernel_restore l m = ((l, m), []).
Proof.
  intros H. revert m. induction H as [|p l Hp _ IH]; intros m.
  - reflexivity.
  - cbn [yf_patchkernel_restore]. rewrite restore_entry_unpatched by exact Hp.
    cbn [fst snd]. now rewrite IH.
Qed.

Lemma restore_clears_flags (l : list patchEntry) (m : memory) :
  Forall (fun p => isPatched p = 0) (fst (fst (yf_patchkernel_restore l m))).
Proof.
  revert m. induction l as [|p l IH]; intros m; [constructor|].
  cbn [yf_patchkernel_restore fst]. constructor; [|apply IH].
  unfold restore_entry. destruct (isPatched p =? 0) eqn:E; cbn [negb fst].
  - now apply Z.eqb_eq.
  - reflexivity.
Qed.

(** C4, amended.  With [isPatched = 0] the reverser changes neither the
    memory nor the descriptor and produces no event, so it may be run
    again, or without any application before it: a reverse pass over
    the entries a reverse pass has left is such a no-op, as is one over
    entries never patched.  With [isPatched <> 0] it writes
    [originalValue] to [patchAddress] and sets [isPatched] to [0]; every
    other field keeps its value, [patchAddress] and [originalValue]
    too. *)
Theorem C4_restore_entry (p : patchEntry) (m m' : memory)
    (l : list patchEntry) :
  (isPatched p = 0 -> restore_entry p m = ((p, m), [])) /\
  (isPatched p <> 0 ->
     let r := restore_entry p m in
     snd (fst r) = store m (patchAddress p) (originalValue p) /\
     writes_of (snd r) = [(patchAddress p, originalValue p)] /\
     fst (fst r) = set_isPatched p 0 /\
     isPatched (fst (fst r)) = 0 /\
     patchAddress (fst (fst r)) = patchAddress p /\
     originalValue (fst (fst r)) = originalValue p /\
     startAddress (fst (fst r)) = startAddress p /\
     same_config p (fst (fst r))) /\
  restore_entry (fst (fst (restore_entry p m))) m' =
    ((fst (fst (restore_entry p m)), m'), []) /\
  yf_patchkernel_restore (fst (fst (yf_patchkernel_restore l m))) m' =
    ((fst (fst (yf_patchkernel_restore l m)), m'), []) /\
  (Forall (fun q => isPatched q = 0) l ->
     yf_patchkernel_restore l m = ((l, m), [])).
Proof.
  split; [apply restore_entry_unpatched|].
  split.
  { intros H r. subst r. rewrite restore_entry_patched by exact H.
    cbn [fst snd]. repeat split. }
  split.
  { apply restore_entry_unpatched.
    unfold restore_entry. destruct (isPatched p =? 0) eqn:E; cbn [negb fst].
    - now apply Z.eqb_eq.
    - reflexivity. }
  split.
  - apply restore_unpatched, restore_clears_flags.
  - apply restore_unpatched.
Qed.

Lemma C4_restore_entry_witness :
  isPatched ex_netif_applied <> 0 /\
  patchAddress (fst (fst (restore_entry ex_netif_applied ex_mem_applied))) =
    patchAddress ex_netif_applied /\
  isPatched ex_netif = 0 /\
  restore_entry ex_netif ex_mem = ((ex_netif, ex_mem), []).
Proof.
  split; [vm_compute; discriminate|].
  split.
  - apply (proj1 (proj2
             (C4_restore_entry ex_netif_applied ex_mem_applied ex_mem []))).
    vm_compute; discriminate.
  - split; [reflexivity|].
    apply (proj1 (C4_restore_entry ex_netif ex_mem ex_mem [])). reflexivity.
Defined.

(** C4 as stated fails.  [netif_receive_skb], patched in [ex_mem], is
    reversed: the flag is cleared, but [patchAddress] still holds
    [0x80200018] and [originalValue] still holds the trap instruction
    [0x00020336]. *)
Lemma C4_counterexample :
  ~ restore_clears_results ex_netif_applied ex_mem_applied.
Proof.
  intros H. destruct H as (_ & Ha & _).
  - vm_compute; discriminate.
  - vm_compute in Ha. discriminate Ha.
Qed.

Lemma netif_reversed_fields :
  let q := fst (fst (restore_entry ex_netif_applied ex_mem_applied)) in
  isPatched ex_netif_applied = 1 /\
  isPatched q = 0 /\
  patchAddress q = 0x80200018 /\
  originalValue q = 0x00020336.
Proof. repeat split. Qed.

(** ** The recorded base address *)

Lemma Forall2_compose {A : Type} (R S T : A -> A -> Prop) :
  (forall a b c, R a b -> S b c -> T a c) ->
  forall l1 l2 l3, Forall2 R l1 l2 -> Forall2 S l2 l3 -> Forall2 T l1 l3.
Proof.
  intros H l1 l2 l3 H12. revert l3.
  induction H12 as [|a b l1 l2 Hab _ IH]; intros l3 H23;
    inversion H23; subst; constructor; eauto.
Qed.

Lemma patch_entry_startAddress (lookup : string -> Z) (p : patchEntry)
    (c : Z) (m : memory) :
  fname (res_val (patch_entry lookup p c m)) = fname p /\
  (lookup (fname p) <> 0 ->
   startAddress (res_val (patch_entry lookup p c m)) = lookup (fname p)) /\
  (lookup (fname p) = 0 ->
   startAddress (res_val (patch_entry lookup p c m)) = startAddress p).
Proof.
  split; [apply patch_entry_same_config|].
  split; intros H.
  - rewrite patch_entry_resolved by assumption. cbv zeta.
    unfold res_val at 1. cbn [fst].
    apply (scan_startAddress (set_startAddress p (lookup (fname p)))).
  - now rewrite patch_entry_unresolved.
Qed.

Lemma restore_entry_startAddress (p : patchEntry) (m : memory) :
  fname (fst (fst (restore_entry p m))) = fname p /\
  startAddress (fst (fst (restore_entry p m))) = startAddress p.
Proof.
  unfold restore_entry. now destruct (negb (isPatched p =? 0)).
Qed.

(** C10.  An apply pass leaves, in every descriptor whose symbol
    resolves, the resolved address in [startAddress], whatever the scan
    of that descriptor met; and after any further passes, apply or
    reverse, the field still holds it.  A reverse pass changes no
    [startAddress] at all. *)
Theorem C10_startAddress_recorded_and_kept (lookup : string -> Z)
    (phs : list pass) (ps : list patchEntry) (m : memory) :
  Forall2
    (fun p q => lookup (fname p) <> 0 -> startAddress q = lookup (fname p))
    ps (res_val (yf_patchkernel_patch lookup ps m)) /\
  Forall2 (fun p q => startAddress q = startAddress p)
    ps (fst (fst (yf_patchkernel_restore ps m))) /\
  Forall2
    (fun p q => lookup (fname p) <> 0 -> startAddress q = lookup (fname p))
    ps (fst (run_passes lookup (ApplyPass :: phs) ps m)).
Proof.
  set (R := fun p q : patchEntry =>
              fname q = fname p /\
              (lookup (fname p) <> 0 -> startAddress q = lookup (fname p))).
  assert (Hap : forall l c mm,
            Forall2 R l (res_val (patch_loop lookup l c mm))).
  { apply patch_loop_Forall2. intros p c mm.
    destruct (patch_entry_startAddress lookup p c mm) as (Hn & Hs & _).
    split; assumption. }
  assert (Hkeep : forall ph l mm,
            Forall2 (fun p q => fname q = fname p /\
                       (lookup (fname p) <> 0 ->
                        startAddress p = lookup (fname p) ->
                        startAddress q = lookup (fname p)))
              l (fst (run_pass lookup ph l mm))).
  { intros [|] l mm; cbn [run_pass fst].
    - apply patch_loop_Forall2. intros p c m0.
      destruct (patch_entry_startAddress lookup p c m0) as (Hn & Hs & _).
      split; auto.
    - apply restore_Forall2. intros p m0.
      destruct (restore_entry_startAddress p m0) as [Hn Hs].
      split; [exact Hn|]. intros _ E. now rewrite Hs. }
  assert (Hall : forall l l0 mm, Forall2 R l0 l ->
            Forall2 R l0 (fst (run_passes lookup phs l mm))).
  { induction phs as [|ph phs IH]; intros l l0 mm H0; [exact H0|].
    cbn [run_passes]. apply IH.
    refine (Forall2_compose _ _ R _ _ _ _ H0 (Hkeep ph l mm)).
    intros a b c0 [Hn Hs] [Hn' Hs']. split; [congruence|].
    intros Hl. rewrite Hn in Hs'. apply Hs'; auto. }
  split; [|split].
  - refine (Forall2_impl _ _ (Hap ps 0 m)). now intros a b [_ H].
  - apply restore_Forall2. intros p m0. apply restore_entry_startAddress.
  - cbn [run_passes run_pass fst snd].
    refine (Forall2_impl _ _ (Hall _ _ _ (Hap ps 0 m))).
    now intros a b [_ H].
Qed.

(** ** The descriptor's turn, by what the scanner reports *)

Lemma scan_infos (p : patchEntry) (c : Z) (m : memory) (n : nat) :
  forall ptr,
  infos_of (res_events (scan n ptr p c m)) =
  match scanner p m n ptr with
  | Found a =>
      [MsgReplaced (m (ptr_add a (patchOffset p)))
         (ptr_add a (patchOffset p)) (patchValue p)]
  | AlreadyApplied a' => [MsgFoundPatched (m a') a']
  | NotFound => []
  end.
Proof.
  induction n as [|n IH]; intros ptr; [reflexivity|].
  rewrite scanner_step.
  destruct (already p m ptr) eqn:Ha.
  - now rewrite scan_already.
  - destruct (hit p m ptr) eqn:Hh.
    + rewrite scan_hit by assumption. apply infos_of_hit.
    + rewrite scan_miss by assumption. unfold res_events, emit. cbn [snd].
      rewrite infos_of_app, infos_of_miss. apply IH.
Qed.

Lemma scanner_found_inv (p : patchEntry) (m : memory) (n : nat) :
  forall ptr a, scanner p m n ptr = Found a ->
  exists j, (j < n)%nat /\ a = pos ptr j /\
            hit p m a = true /\ already p m a = false.
Proof.
  induction n as [|n IH]; intros ptr a; [discriminate|].
  rewrite scanner_step.
  destruct (already p m ptr) eqn:Ha; [discriminate|].
  destruct (hit p m ptr) eqn:Hh.
  - intros [= <-]. exists O. repeat split; auto; lia.
  - intros H. destruct (IH _ _ H) as (j & Hj & E & H1 & H2).
    exists (S j). repeat split; auto; lia.
Qed.

Lemma patch_entry_outcome (lookup : string -> Z) (p : patchEntry)
    (c : Z) (m : memory) :
  let rp := patch_entry lookup p c m in
  let base := lookup (fname p) in
  match outcome lookup p m with
  | None => rp = ((p, c, m), [EvInfo (MsgUnableToLocate (fname p))])
  | Some (Found a) =>
      fst rp =
        (set_startAddress (applied_entry p m a) base, (c + 1) mod 2 ^ 32,
         store m (ptr_add a (patchOffset p)) (patchValue p)) /\
      writes_of (res_events rp) = [(ptr_add a (patchOffset p), patchValue p)] /\
      infos_of (res_events rp) =
        [MsgPatching (fname p) base;
         MsgReplaced (m (ptr_add a (patchOffset p)))
           (ptr_add a (patchOffset p)) (patchValue p)]
  | Some (AlreadyApplied a') =>
      fst rp = (set_startAddress p base, c, m) /\
      writes_of (res_events rp) = [] /\
      infos_of (res_events rp) =
        MsgPatching (fname p) base :: MsgFoundPatched (m a') a' ::
        no_instruction p
  | Some NotFound =>
      fst rp = (set_startAddress p base, c, m) /\
      writes_of (res_events rp) = [] /\
      infos_of (res_events rp) =
        MsgPatching (fname p) base :: no_instruction p
  end.
Proof.
  intros rp base. subst rp. unfold outcome. fold base.
  destruct (base =? 0) eqn:Hb.
  - apply Z.eqb_eq in Hb. now apply patch_entry_unresolved.
  - apply Z.eqb_neq in Hb. rewrite patch_entry_scan by exact Hb.
    cbv zeta. fold base.
    pose proof (scan_refines p c m (Z.to_nat (maxOffset p))
                  (ptr_add base (startOffset p))) as Hst.
    pose proof (scan_writes p c m (Z.to_nat (maxOffset p))
                  (ptr_add base (startOffset p))) as Hw.
    pose proof (scan_infos p c m (Z.to_nat (maxOffset p))
                  (ptr_add base (startOffset p))) as Hi.
    set (r := scan _ _ p c m) in *.
    unfold res_val, res_count, res_mem, res_events in *. cbn [fst snd].
    change (writes_of (EvInfo ?i :: ?l)) with (writes_of l).
    change (infos_of (EvInfo ?i :: ?l)) with (i :: infos_of l).
    rewrite writes_of_app, infos_of_app, Hw, Hi.
    unfold no_instruction.
    destruct (scanner p m _ _); rewrite Hst; cbn [fst snd isPatched
      applied_entry set_isPatched];
      [change (1 =? 0) with false | | ];
      try destruct (isPatched p =? 0); repeat split.
Qed.

Lemma in_force_app (l1 l2 : list message) :
  forall cur, in_force (l1 ++ l2) cur = in_force l2 (in_force l1 cur).
Proof.
  induction l1 as [|i l1 IH]; intros cur; [reflexivity|].
  destruct i; cbn [app in_force]; apply IH.
Qed.

(** ** The flag and the result fields *)

Lemma do_turn_flag_tells (lookup : string -> Z) (t : turn)
    (p : patchEntry) (cur : option (Z * Z)) :
  flag_tells p cur ->
  flag_tells (fst (do_turn lookup t p))
    (in_force (infos_of (snd (do_turn lookup t p))) cur).
Proof.
  intros [Hflag Hdata]. destruct t as [c m | m]; cbn [do_turn fst snd].
  - pose proof (patch_entry_outcome lookup p c m) as H. cbv zeta in H.
    unfold res_val, res_events in *.
    destruct (outcome lookup p m) as [[a | a' | ] | ].
    + destruct H as (Hst & _ & Hi). rewrite Hst, Hi. cbn.
      split; [split; intros _; discriminate|].
      intros a0 v [= <- <-]. split; reflexivity.
    + destruct H as (Hst & _ & Hi). rewrite Hst, Hi.
      unfold no_instruction. destruct (isPatched p =? 0); cbn;
        split; assumption.
    + destruct H as (Hst & _ & Hi). rewrite Hst, Hi.
      unfold no_instruction. destruct (isPatched p =? 0); cbn;
        split; assumption.
    + rewrite H. cbn. split; assumption.
  - unfold restore_entry. destruct (isPatched p =? 0) eqn:E; cbn.
    + split; assumption.
    + split; [split; intros H; now elim H | discriminate].
Qed.

Lemma lifecycle_flag_tells (lookup : string -> Z) (ts : list turn) :
  forall p cur, flag_tells p cur ->
  flag_tells (fst (lifecycle lookup ts p))
    (in_force (infos_of (snd (lifecycle lookup ts p))) cur).
Proof.
  induction ts as [|t ts IH]; intros p cur H; [exact H|].
  cbn [lifecycle fst snd]. rewrite infos_of_app, in_force_app.
  apply IH. now apply do_turn_flag_tells.
Qed.

Lemma scanner_same_config (p q : patchEntry) (m : memory) (n : nat) :
  same_config p q ->
  forall ptr, scanner q m n ptr = scanner p m n ptr.
Proof.
  intros (_ & _ & _ & Hl & Ha & Ho & Hvo & Hvv & Hva & Hvm & Hpo & Hpv).
  induction n as [|n IH]; intros ptr; [reflexivity|].
  cbn [scanner]. rewrite Hl, Ha, Ho, Hvo, Hvv, Hva, Hvm, Hpo, Hpv.
  now rewrite !IH.
Qed.

Lemma outcome_same_config (lookup : string -> Z) (p q : patchEntry)
    (m : memory) :
  same_config p q -> outcome lookup q m = outcome lookup p m.
Proof.
  intros H. unfold outcome.
  rewrite (scanner_same_config p q m _ H).
  destruct H as (Hn & Hs & Hm & _). now rewrite Hn, Hs, Hm.
Qed.

Lemma do_turn_same_config (lookup : string -> Z) (p0 q : patchEntry)
    (t : turn) :
  same_config p0 q -> same_config p0 (fst (do_turn lookup t q)).
Proof.
  intros H.
  assert (H' : same_config q (fst (do_turn lookup t q))).
  { destruct t as [c m | m]; cbn [do_turn fst].
    - apply patch_entry_same_config.
    - unfold restore_entry.
      destruct (negb (isPatched q =? 0)); repeat split. }
  unfold same_config in *. decompose [and] H. decompose [and] H'.
  repeat split; congruence.
Qed.

Lemma do_turn_tracks (lookup : string -> Z) (p0 q : patchEntry) (t : turn)
    (cur : option (Z * Z)) :
  same_config p0 q ->
  flag_tells q cur ->
  in_force (infos_of (snd (do_turn lookup t q))) cur =
  turn_effect lookup p0 t cur.
Proof.
  intros Hc [Hflag _]. destruct t as [c m | m]; cbn [do_turn snd turn_effect].
  - pose proof (patch_entry_outcome lookup q c m) as H. cbv zeta in H.
    rewrite (outcome_same_config lookup p0 q m Hc) in H.
    assert (Hpo : patchOffset q = patchOffset p0) by apply Hc.
    destruct (outcome lookup p0 m) as [[a | a' | ] | ].
    + destruct H as (_ & _ & Hi). rewrite Hi, Hpo. reflexivity.
    + destruct H as (_ & _ & Hi). rewrite Hi. unfold no_instruction.
      now destruct (isPatched q =? 0).
    + destruct H as (_ & _ & Hi). rewrite Hi. unfold no_instruction.
      now destruct (isPatched q =? 0).
    + rewrite H. reflexivity.
  - unfold restore_entry. destruct (isPatched q =? 0) eqn:E; cbn.
    + apply Z.eqb_eq in E. destruct cur as [x|]; [|reflexivity].
      exfalso. apply (proj2 Hflag); [discriminate | exact E].
    + reflexivity.
Qed.

Lemma lifecycle_tracks (lookup : string -> Z) (p0 : patchEntry)
    (ts : list turn) :
  forall q cur,
  same_config p0 q ->
  flag_tells q cur ->
  in_force (infos_of (snd (lifecycle lookup ts q))) cur =
  applications lookup p0 ts cur.
Proof.
  induction ts as [|t ts IH]; intros q cur Hc Hf; [reflexivity|].
  cbn [lifecycle fst snd applications].
  rewrite infos_of_app, in_force_app.
  rewrite <- (do_turn_tracks lookup p0 q t cur Hc Hf).
  apply IH.
  - now apply do_turn_same_config.
  - now apply do_turn_flag_tells.
Qed.

Lemma scanner_found_first (p : patchEntry) (m : memory) (n : nat) :
  forall ptr a, scanner p m n ptr = Found a ->
  exists j, (j < n)%nat /\ a = pos ptr j /\
    hit p m (pos ptr j) = true /\
    (forall i, (i <= j)%nat -> already p m (pos ptr i) = false) /\
    (forall i, (i < j)%nat -> hit p m (pos ptr i) = false).
Proof.
  induction n as [|n IH]; intros ptr a; [discriminate|].
  rewrite scanner_step.
  destruct (already p m ptr) eqn:Ha; [discriminate|].
  destruct (hit p m ptr) eqn:Hh.
  - intros [= <-]. exists O.
    split; [lia|]. split; [reflexivity|]. split; [exact Hh|]. split.
    + intros i Hi. replace i with O by lia. exact Ha.
    + intros i Hi. lia.
  - intros H. destruct (IH _ _ H) as (j & Hj & E & H1 & H2 & H3).
    exists (S j).
    split; [lia|]. split; [exact E|]. split; [exact H1|]. split.
    + intros [|i] Hi; [exact Ha|]. cbn [pos]. apply H2. lia.
    + intros [|i] Hi; [exact Hh|]. cbn [pos]. apply H3. lia.
Qed.

Lemma found_is_successful (lookup : string -> Z) (p : patchEntry) (c : Z)
    (m : memory) (a : Z) :
  outcome lookup p m = Some (Found a) ->
  successful_application lookup p c m
    (ptr_add a (patchOffset p)) (m (ptr_add a (patchOffset p))).
Proof.
  intros Ho. pose proof Ho as Ho'. unfold outcome in Ho.
  destruct (lookup (fname p) =? 0) eqn:Hb; [discriminate|].
  apply Z.eqb_neq in Hb. injection Ho as Hs.
  destruct (scanner_found_first _ _ _ _ _ Hs) as (j & Hj & -> & Hh & Hg & Hm).
  split; [exact Hb|]. exists j. rewrite pos_window in *.
  split; [exact Hj|]. split; [reflexivity|]. split; [reflexivity|].
  split; [exact Hh|].
  split; [intros i Hi; rewrite <- pos_window; now apply Hg|].
  split; [intros i Hi; rewrite <- pos_window; now apply Hm|].
  intros q Hc.
  pose proof (patch_entry_outcome lookup q c m) as H. cbv zeta in H.
  rewrite (outcome_same_config lookup p q m Hc), Ho' in H.
  destruct H as (Hst & Hw & _).
  assert (Hpo : patchOffset q = patchOffset p) by apply Hc.
  assert (Hpv : patchValue q = patchValue p) by apply Hc.
  unfold res_mem. rewrite Hst, Hw, Hpo, Hpv. split; reflexivity.
Qed.

Lemma applications_origin (lookup : string -> Z) (p : patchEntry)
    (ts : list turn) :
  forall cur A v,
  applications lookup p ts cur = Some (A, v) ->
  cur = Some (A, v) \/
  exists c m, In (TurnApply c m) ts /\
              successful_application lookup p c m A v.
Proof.
  induction ts as [|t ts IH]; intros cur A v H; [now left|].
  cbn [applications] in H.
  destruct (IH _ _ _ H) as [E | (c & m & Hin & Hs)].
  - destruct t as [c m | m]; cbn [turn_effect] in E; [|discriminate].
    destruct (outcome lookup p m) as [[a | a' | ] | ] eqn:Ho;
      try (now left).
    injection E as <- <-. right. exists c, m.
    split; [now left | now apply found_is_successful].
  - right. exists c, m. split; [now right | exact Hs].
Qed.

(** C5.  The table of the module starts with all result fields zero
    and the flag clear.  Take a descriptor whose flag is clear through
    any sequence of turns in apply and reverse passes, each in whatever
    memory.  Then the flag is set exactly when some apply turn was a
    successful application and no reverse turn came after the last such;
    and in that case [patchAddress] is the word that application wrote
    [patchValue] to, [patchOffset] words after the first position of the
    window that passed both comparisons in the memory of that turn, and
    [originalValue] is the content that memory had at that word.  The
    printed log tells the same: a replacement line with no reversal
    line after it, with that address and that original value. *)
Theorem C5_flag_tells_results (lookup : string -> Z) (ts : list turn)
    (p0 : patchEntry) (offsetof_sk : Z) :
  isPatched p0 = 0 ->
  let r := lifecycle lookup ts p0 in
  let cur := in_force (infos_of (snd r)) None in
  let app := applications lookup p0 ts None in
  Forall unset (patchesForTunDevice offsetof_sk) /\
  (isPatched (fst r) <> 0 <-> cur <> None) /\
  (isPatched (fst r) <> 0 <->
   cur = Some (patchAddress (fst r), originalValue (fst r))) /\
  (forall a v, cur = Some (a, v) ->
     patchAddress (fst r) = a /\ originalValue (fst r) = v) /\
  cur = app /\
  (isPatched (fst r) <> 0 <->
   app = Some (patchAddress (fst r), originalValue (fst r))) /\
  (isPatched (fst r) <> 0 ->
   exists c m,
     In (TurnApply c m) ts /\
     successful_application lookup p0 c m
       (patchAddress (fst r)) (originalValue (fst r))) /\
  (forall A v, app = Some (A, v) ->
     patchAddress (fst r) = A /\ originalValue (fst r) = v /\
     exists c m,
       In (TurnApply c m) ts /\ successful_application lookup p0 c m A v).
Proof.
  intros H0 r cur app.
  assert (Hinit : flag_tells p0 None).
  { split; [|discriminate]. split; intros H; now elim H. }
  assert (H : flag_tells (fst r) cur)
    by (now apply lifecycle_flag_tells).
  assert (Happ : cur = app).
  { apply (lifecycle_tracks lookup p0 ts p0 None);
      [repeat split | exact Hinit]. }
  destruct H as [Hflag Hdata].
  assert (Hiff : isPatched (fst r) <> 0 <->
                 cur = Some (patchAddress (fst r), originalValue (fst r))).
  { split.
    - intros Hp. apply Hflag in Hp. destruct cur as [[a v]|]; [|now elim Hp].
      destruct (Hdata a v eq_refl) as [-> ->]. reflexivity.
    - intros E. apply Hflag. rewrite E. discriminate. }
  assert (Horigin : forall A v, app = Some (A, v) ->
            exists c m, In (TurnApply c m) ts /\
                        successful_application lookup p0 c m A v).
  { intros A v E.
    destruct (applications_origin lookup p0 ts None A v E) as [E'|E'];
      [discriminate | exact E']. }
  split; [repeat constructor|]. split; [exact Hflag|]. split; [exact Hiff|].
  split; [exact Hdata|]. split; [exact Happ|].
  split; [now rewrite <- Happ|].
  split.
  - intros Hp. apply Horigin. rewrite <- Happ. now apply Hiff.
  - intros A v E. rewrite <- Happ in E.
    destruct (Hdata A v E) as [-> ->].
    split; [reflexivity|]. split; [reflexivity|].
    apply Horigin. now rewrite <- Happ.
Qed.

Lemma C5_flag_tells_results_witness :
  isPatched ex_netif = 0 /\
  let r := lifecycle ex_lookup
             [TurnApply 0 ex_mem; TurnReverse ex_mem_applied;
              TurnApply 0 ex_mem] ex_netif in
  (isPatched (fst r) <> 0 <->
   applications ex_lookup ex_netif
     [TurnApply 0 ex_mem; TurnReverse ex_mem_applied; TurnApply 0 ex_mem]
     None = Some (patchAddress (fst r), originalValue (fst r))) /\
  patchAddress (fst r) = 0x80200018 /\
  originalValue (fst r) = ex_mem 0x80200018.
Proof.
  split; [reflexivity|]. split.
  - exact (proj1 (proj2 (proj2 (proj2 (proj2 (proj2
             (C5_flag_tells_results ex_lookup
                [TurnApply 0 ex_mem; TurnReverse ex_mem_applied;
                 TurnApply 0 ex_mem] ex_netif 16 eq_refl))))))).
  - split; vm_compute; reflexivity.
Defined.

(** ** The round trip *)

Lemma restore_app (l1 l2 : list patchEntry) :
  forall m,
  yf_patchkernel_restore (l1 ++ l2) m =
  let r1 := yf_patchkernel_restore l1 m in
  let r2 := yf_patchkernel_restore l2 (snd (fst r1)) in
  ((fst (fst r1) ++ fst (fst r2), snd (fst r2)), snd r1 ++ snd r2).
Proof.
  induction l1 as [|p l1 IH]; intros m.
  - cbn. now destruct (yf_patchkernel_restore l2 m) as [[? ?] ?].
  - cbn [app yf_patchkernel_restore]. rewrite IH. cbn [fst snd app].
    now rewrite app_assoc.
Qed.

Lemma restore_mem_other (a : Z) (l : list patchEntry) :
  forall m,
  Forall (fun q => isPatched q <> 0 -> patchAddress q <> a) l ->
  snd (fst (yf_patchkernel_restore l m)) a = m a.
Proof.
  induction l as [|q l IH]; intros m H; [reflexivity|].
  inversion H as [|? ? Hq Hl]; subst.
  cbn [yf_patchkernel_restore fst snd]. rewrite IH by exact Hl.
  unfold restore_entry. destruct (isPatched q =? 0) eqn:E; cbn [negb fst snd].
  - reflexivity.
  - apply Z.eqb_neq in E. apply store_other. intros Ha. now apply (Hq E).
Qed.

Lemma restore_writes_back (p : patchEntry) (l1 l2 : list patchEntry)
    (m : memory) :
  isPatched p <> 0 ->
  Forall (fun q => isPatched q <> 0 -> patchAddress q <> patchAddress p) l2 ->
  snd (fst (yf_patchkernel_restore (l1 ++ p :: l2) m)) (patchAddress p) =
  originalValue p.
Proof.
  intros Hp Hl. rewrite restore_app. cbv zeta. cbn [fst snd].
  cbn [yf_patchkernel_restore fst snd]. rewrite restore_mem_other by exact Hl.
  rewrite restore_entry_patched by exact Hp. cbn [fst snd].
  apply store_same.
Qed.

(** C6, amended.  A descriptor applied in the apply pass records as
    original the word its patch address held just before the patch
    write; and if no descriptor after it in the table is left patched
    at the same address, the word at that address after the reverse pass
    is that original value. *)
Theorem C6_round_trip (lookup : string -> Z) (l1 l2 : list patchEntry)
    (p0 : patchEntry) (m : memory) :
  let r1 := patch_loop lookup l1 0 m in
  let rp := patch_entry lookup p0 (res_count r1) (res_mem r1) in
  let r2 := patch_loop lookup l2 (res_count rp) (res_mem rp) in
  let r := yf_patchkernel_patch lookup (l1 ++ p0 :: l2) m in
  let back := yf_patchkernel_restore (res_val r) (res_mem r) in
  let p := res_val rp in
  isPatched p0 = 0 ->
  isPatched p <> 0 ->
  Forall (fun q => isPatched q <> 0 -> patchAddress q <> patchAddress p)
    (res_val r2) ->
  res_val r = res_val r1 ++ p :: res_val r2 /\
  originalValue p = res_mem r1 (patchAddress p) /\
  res_mem rp = store (res_mem r1) (patchAddress p) (patchValue p0) /\
  snd (fst back) (patchAddress p) = originalValue p /\
  snd (fst back) (patchAddress p) = res_mem r1 (patchAddress p).
Proof.
  intros r1 rp r2 r back p H0 Hp Hl.
  assert (Hr : res_val r = res_val r1 ++ p :: res_val r2).
  { subst r. unfold yf_patchkernel_patch. now rewrite patch_loop_middle. }
  assert (Hback : snd (fst back) (patchAddress p) = originalValue p).
  { subst back. rewrite Hr. now apply restore_writes_back. }
  pose proof (patch_entry_outcome lookup p0 (res_count r1) (res_mem r1)) as H.
  cbv zeta in H. fold rp in H.
  assert (Hnot : forall b c mm, fst rp = (b, c, mm) ->
                   isPatched b = 0 -> False).
  { intros b c mm E Hb. apply Hp. subst p. unfold res_val. now rewrite E. }
  destruct (outcome lookup p0 (res_mem r1)) as [[a | a' | ] | ].
  - destruct H as (Hst & _ & _).
    assert (Ep : p = set_startAddress (applied_entry p0 (res_mem r1) a)
                       (lookup (fname p0))).
    { subst p. unfold res_val. now rewrite Hst. }
    assert (Em : res_mem rp =
                 store (res_mem r1) (ptr_add a (patchOffset p0))
                   (patchValue p0)).
    { unfold res_mem at 1. now rewrite Hst. }
    split; [exact Hr|]. rewrite Hback, Em, Ep. cbn. repeat split.
  - destruct H as (Hst & _). elim (Hnot _ _ _ Hst H0).
  - destruct H as (Hst & _). elim (Hnot _ _ _ Hst H0).
  - rewrite H in Hnot. elim (Hnot _ _ _ eq_refl H0).
Qed.

Lemma C6_round_trip_witness :
  isPatched ex_netif = 0 /\
  let r := yf_patchkernel_patch ex_lookup
             ([ex_ip_forward] ++ ex_netif :: [ex_netif2]) ex_mem in
  snd (fst (yf_patchkernel_restore (res_val r) (res_mem r))) 0x80200018 =
  0x00020336.
Proof.
  split; [reflexivity|].
  apply (proj1 (proj2 (proj2 (proj2
           (C6_round_trip ex_lookup [ex_ip_forward] [ex_netif2] ex_netif
              ex_mem eq_refl
              ltac:(vm_compute; discriminate)
              ltac:(repeat constructor; vm_compute; intros H _; apply H;
                    reflexivity)))))).
Defined.

(** C6 as stated fails.  [ex_second] looks for the instruction the
    first descriptor stores into [ip_forward] and replaces it again.
    The reverse pass restores the first descriptor, then the second:
    the word ends as [addiu v0,zero,0], the first descriptor's patch,
    not the [lw v0,16(a0)] it recorded as original. *)
Lemma C6_counterexample :
  ~ round_trip_holds ex_lookup [] [ex_second] ex_ip_forward ex_mem.
Proof.
  intros H. unfold round_trip_holds in H. cbv zeta in H.
  assert (E : 0x24020000 = 0x8C820010); [|discriminate E].
  apply H; [reflexivity | vm_compute; discriminate].
Qed.

Lemma ip_forward_chain_trace :
  let r := yf_patchkernel_patch ex_lookup [ex_ip_forward; ex_second] ex_mem in
  let back := yf_patchkernel_restore (res_val r) (res_mem r) in
  ex_mem 0x8010000C = 0x8C820010 /\
  res_count r = 2 /\
  map patchAddress (res_val r) = [0x8010000C; 0x8010000C] /\
  map originalValue (res_val r) = [0x8C820010; 0x24020000] /\
  res_mem r 0x8010000C = 0x24020001 /\
  writes_of (snd back) =
    [(0x8010000C, 0x8C820010); (0x8010000C, 0x24020000)] /\
  snd (fst back) 0x8010000C = 0x24020000.
Proof. repeat split; vm_compute; reflexivity. Qed.

(** ** Which words are written *)

Lemma patched_addresses_app (l1 l2 : list patchEntry) :
  patched_addresses (l1 ++ l2) = patched_addresses l1 ++ patched_addresses l2.
Proof. unfold patched_addresses. now rewrite filter_app, map_app. Qed.

Lemma patch_entry_site (lookup : string -> Z) (p : patchEntry) (c : Z)
    (m : memory) :
  isPatched p = 0 ->
  let rp := patch_entry lookup p c m in
  map fst (writes_of (res_events rp)) = patched_addresses [res_val rp] /\
  forall a, ~ In a (map fst (writes_of (res_events rp))) -> res_mem rp a = m a.
Proof.
  intros H0 rp.
  pose proof (patch_entry_outcome lookup p c m) as H. cbv zeta in H.
  fold rp in H. unfold res_val, res_mem, patched_addresses.
  destruct (outcome lookup p m) as [[a | a' | ] | ].
  - destruct H as (Hst & Hw & _). rewrite Hst, Hw. cbn.
    split; [reflexivity|]. intros a0 Hn. apply store_other.
    intros E. apply Hn. left. now symmetry.
  - destruct H as (Hst & Hw & _). rewrite Hst, Hw. cbn. rewrite H0.
    split; reflexivity.
  - destruct H as (Hst & Hw & _). rewrite Hst, Hw. cbn. rewrite H0.
    split; reflexivity.
  - rewrite H. cbn. rewrite H0. split; reflexivity.
Qed.

Lemma patch_loop_sites (lookup : string -> Z) (ps : list patchEntry) :
  Forall (fun p => isPatched p = 0) ps ->
  forall c m,
  let r := patch_loop lookup ps c m in
  map fst (writes_of (res_events r)) = patched_addresses (res_val r) /\
  forall a, ~ In a (patched_addresses (res_val r)) -> res_mem r a = m a.
Proof.
  induction 1 as [|p ps Hp _ IH]; intros c m; [split; reflexivity|].
  cbv zeta. rewrite patch_loop_cons. cbv zeta.
  destruct (patch_entry_site lookup p c m Hp) as [Hw Hf].
  set (rp := patch_entry lookup p c m) in *.
  destruct (IH (res_count rp) (res_mem rp)) as [Hw' Hf'].
  set (r := patch_loop lookup ps (res_count rp) (res_mem rp)) in *.
  rewrite !res_val_mk, res_events_mk, res_mem_mk.
  change (res_val rp :: res_val r) with ([res_val rp] ++ res_val r).
  rewrite patched_addresses_app, writes_of_app, map_app, Hw, Hw'.
  split; [reflexivity|].
  intros a Hn. rewrite Hf'.
  - apply Hf. rewrite Hw. intros Hin. apply Hn. apply in_or_app. now left.
  - intros Hin. apply Hn. apply in_or_app. now right.
Qed.

Lemma restore_sites (l : list patchEntry) :
  forall m,
  map fst (writes_of (snd (yf_patchkernel_restore l m))) =
    patched_addresses l /\
  forall a, ~ In a (patched_addresses l) ->
    snd (fst (yf_patchkernel_restore l m)) a = m a.
Proof.
  induction l as [|q l IH]; intros m; [split; reflexivity|].
  cbn [yf_patchkernel_restore fst snd].
  change (q :: l) with ([q] ++ l). rewrite patched_addresses_app.
  rewrite writes_of_app, map_app.
  unfold patched_addresses at 1 3. cbn [filter].
  destruct (Z.eq_dec (isPatched q) 0) as [E|E].
  - rewrite restore_entry_unpatched by exact E. cbn [fst snd].
    destruct (IH m) as [Hw Hf]. rewrite Hw.
    apply Z.eqb_eq in E. rewrite E. cbn.
    split; [reflexivity | exact Hf].
  - rewrite restore_entry_patched by exact E. cbn [fst snd].
    destruct (IH (store m (patchAddress q) (originalValue q))) as [Hw Hf].
    rewrite Hw. apply Z.eqb_neq in E. rewrite E. cbn.
    split; [reflexivity|]. intros a Hn.
    rewrite Hf by tauto. apply store_other.
    intros Ea. apply Hn. left. now symmetry.
Qed.

(** C7.  Take a table whose flags are all clear, run the apply pass and
    then the reverse pass.  The apply pass writes once for each
    descriptor it leaves patched, at that descriptor's patch address;
    the reverse pass writes once at each of the same addresses; and
    nothing else is written.  A word at any other address has its
    initial content after every descriptor's turn in the apply pass,
    after the apply pass, after every descriptor's turn in the reverse
    pass, and at the end. *)
Theorem C7_only_patch_words_written (lookup : string -> Z)
    (ps : list patchEntry) (m : memory) :
  Forall (fun p => isPatched p = 0) ps ->
  let r := yf_patchkernel_patch lookup ps m in
  let back := yf_patchkernel_restore (res_val r) (res_mem r) in
  let sites := patched_addresses (res_val r) in
  map fst (writes_of (res_events r)) = sites /\
  map fst (writes_of (snd back)) = sites /\
  (forall a v, In (a, v) (writes_of (res_events r ++ snd back)) ->
     In a sites) /\
  (forall a, ~ In a sites ->
     res_mem r a = m a /\ snd (fst back) a = m a) /\
  (forall l1 l2 a, ps = l1 ++ l2 -> ~ In a sites ->
     res_mem (patch_loop lookup l1 0 m) a = m a) /\
  (forall k1 k2 a, res_val r = k1 ++ k2 -> ~ In a sites ->
     snd (fst (yf_patchkernel_restore k1 (res_mem r))) a = m a).
Proof.
  intros Hfresh r back sites.
  destruct (patch_loop_sites lookup ps Hfresh 0 m) as [Hw Hf].
  fold (yf_patchkernel_patch lookup ps m) in Hw, Hf. fold r in Hw, Hf.
  fold sites in Hw, Hf.
  destruct (restore_sites (res_val r) (res_mem r)) as [Hw' Hf'].
  fold back in Hw', Hf'. fold sites in Hw', Hf'.
  split; [exact Hw|]. split; [exact Hw'|].
  split.
  { intros a v Hin. rewrite writes_of_app in Hin.
    apply in_app_or in Hin as [Hin|Hin].
    - rewrite <- Hw. now apply (in_map fst) in Hin.
    - rewrite <- Hw'. now apply (in_map fst) in Hin. }
  split.
  { intros a Hn. split; [now apply Hf|]. rewrite Hf' by exact Hn.
    now apply Hf. }
  split.
  - intros l1 l2 a E Hn.
    assert (H1 : Forall (fun p => isPatched p = 0) l1).
    { rewrite E in Hfresh. now apply Forall_app in Hfresh. }
    apply (patch_loop_sites lookup l1 H1 0 m).
    intros Hin. apply Hn. subst sites r. unfold yf_patchkernel_patch.
    rewrite E, patch_loop_app. cbv zeta. unfold res_val at 1. cbn [fst].
    rewrite patched_addresses_app. apply in_or_app. now left.
  - intros k1 k2 a E Hn.
    rewrite (proj2 (restore_sites k1 (res_mem r))).
    + now apply Hf.
    + intros Hin. apply Hn. subst sites. rewrite E, patched_addresses_app.
      apply in_or_app. now left.
Qed.

Lemma C7_only_patch_words_written_witness :
  Forall (fun p => isPatched p = 0) ex_table /\
  let r := yf_patchkernel_patch ex_lookup ex_table ex_mem in
  let back := yf_patchkernel_restore (res_val r) (res_mem r) in
  map fst (writes_of (snd back)) = patched_addresses (res_val r) /\
  patched_addresses (res_val r) = [0x8010000C; 0x80200018].
Proof.
  assert (H : Forall (fun p => isPatched p = 0) ex_table)
    by (repeat constructor).
  split; [exact H|]. split.
  - exact (proj1 (proj2 (C7_only_patch_words_written ex_lookup ex_table
                          ex_mem H))).
  - vm_compute. reflexivity.
Defined.

(** ** The returned count *)

Lemma patch_entry_counts (lookup : string -> Z) (p : patchEntry) (c : Z)
    (m : memory) :
  let rp := patch_entry lookup p c m in
  let w := applied_count (res_events rp) in
  let al := already_count (res_events rp) in
  let res : nat := if negb (lookup (fname p) =? 0) then 1%nat else 0%nat in
  let mt : nat :=
    if negb (lookup (fname p) =? 0)
       && has_match p m (Z.to_nat (maxOffset p))
            (ptr_add (lookup (fname p)) (startOffset p))
    then 1%nat else 0%nat in
  (w = 0%nat /\ res_count rp = c \/
   w = 1%nat /\ al = 0%nat /\ res_count rp = (c + 1) mod 2 ^ 32) /\
  (w <= mt)%nat /\ (mt <= res)%nat /\ (w + al <= res)%nat.
Proof.
  intros rp w al res mt. subst w al res mt.
  pose proof (patch_entry_outcome lookup p c m) as H. cbv zeta in H.
  fold rp in H. unfold outcome in H. unfold applied_count, already_count.
  unfold res_count.
  destruct (lookup (fname p) =? 0) eqn:Hb; cbn [negb andb].
  - rewrite H. cbn. split; [left; split; reflexivity | lia].
  - destruct (scanner p m _ _) as [a | a' | ] eqn:Hs.
    + destruct H as (Hst & Hw & Hi). rewrite Hst, Hw, Hi.
      rewrite (scanner_found_has_match _ _ _ _ _ Hs). cbn.
      split; [right; repeat split | lia].
    + destruct H as (Hst & Hw & Hi). rewrite Hst, Hw, Hi.
      unfold no_instruction. cbn [fst snd List.length].
      split; [left; split; reflexivity|].
      destruct (has_match p m _ _), (isPatched p =? 0); cbn; lia.
    + destruct H as (Hst & Hw & Hi). rewrite Hst, Hw, Hi.
      unfold no_instruction. cbn [fst snd List.length].
      split; [left; split; reflexivity|].
      destruct (has_match p m _ _), (isPatched p =? 0); cbn; lia.
Qed.

Lemma patch_loop_counts (lookup : string -> Z) (ps : list patchEntry) :
  forall c m,
  0 <= c < 2 ^ 32 ->
  let r := patch_loop lookup ps c m in
  let w := applied_count (res_events r) in
  res_count r = (c + Z.of_nat w) mod 2 ^ 32 /\
  (w <= matching lookup ps c m)%nat /\
  (matching lookup ps c m <= resolvable lookup ps)%nat /\
  (w + already_count (res_events r) <= resolvable lookup ps)%nat /\
  (resolvable lookup ps <= List.length ps)%nat.
Proof.
  induction ps as [|p ps IH]; intros c m Hc.
  - cbn. rewrite Z.add_0_r, Z.mod_small by exact Hc. repeat split; lia.
  - cbv zeta. rewrite patch_loop_cons. cbv zeta.
    rewrite res_count_mk, res_events_mk.
    pose proof (patch_entry_counts lookup p c m) as Hp. cbv zeta in Hp.
    cbn [matching]. unfold resolvable. cbn [filter List.length].
    fold (resolvable lookup ps).
    set (rp := patch_entry lookup p c m) in *.
    assert (Hc' : 0 <= res_count rp < 2 ^ 32).
    { destruct Hp as ([[_ ->] | (_ & _ & ->)] & _); [exact Hc|].
      apply Z.mod_pos_bound. lia. }
    specialize (IH (res_count rp) (res_mem rp) Hc'). cbv zeta in IH.
    set (r := patch_loop lookup ps (res_count rp) (res_mem rp)) in *.
    destruct IH as (Hcount & Hk & Hm & Ha & Hn).
    unfold applied_count, already_count in *.
    rewrite writes_of_app, infos_of_app, filter_app, !length_app.
    set (w := List.length (writes_of (res_events rp))) in *.
    set (w' := List.length (writes_of (res_events r))) in *.
    set (al := List.length (filter is_found_patched
                              (infos_of (res_events rp)))) in *.
    set (al' := List.length (filter is_found_patched
                               (infos_of (res_events r)))) in *.
    set (K' := matching lookup ps (res_count rp) (res_mem rp)) in *.
    set (hm := has_match p m _ _) in *.
    destruct Hp as (Hstep & Hwm & Hmr & Hwa).
    split.
    { rewrite Hcount.
      destruct Hstep as [[-> ->] | (-> & _ & ->)].
      - reflexivity.
      - rewrite Zplus_mod_idemp_l. f_equal. lia. }
    clearbody hm w w' al al' K'.
    destruct (negb (lookup (fname p) =? 0)); cbn [andb List.length] in *;
      fold (resolvable lookup ps); destruct hm; repeat split; lia.
Qed.

(** C8, amended.  For a table of N descriptors, of which M have a
    resolvable symbol and K of those have, in the memory as it is when
    their turn comes (the memory given to the pass with the patches of
    the descriptors before them), a position in their window that passes
    the search comparison and the verification: the value the apply pass
    returns is the number of patches it applied, one write each, as an
    [unsigned int] holds it (the number itself for every table of fewer
    than [2^32] entries); it is at most K, hence at most [min M K]; and
    the descriptors reported as already patched are not in it: applied
    and already-patched descriptors together are at most M. *)
Theorem C8_count_of_applied_patches (lookup : string -> Z)
    (ps : list patchEntry) (m : memory) :
  let r := yf_patchkernel_patch lookup ps m in
  let N := List.length ps in
  let M := resolvable lookup ps in
  let K := matching lookup ps 0 m in
  res_count r = Z.of_nat (applied_count (res_events r)) mod 2 ^ 32 /\
  (Z.of_nat N < 2 ^ 32 ->
   res_count r = Z.of_nat (applied_count (res_events r))) /\
  (applied_count (res_events r) <= K)%nat /\
  (K <= M)%nat /\ (M <= N)%nat /\
  res_count r <= Z.of_nat (Nat.min M K) /\
  (applied_count (res_events r) + already_count (res_events r) <= M)%nat.
Proof.
  intros r N M K.
  destruct (patch_loop_counts lookup ps 0 m) as (Hc & Hk & Hm & Ha & Hn);
    [lia|].
  fold (yf_patchkernel_patch lookup ps m) in Hc, Hk, Ha. fold r in Hc, Hk, Ha.
  fold K in Hk, Hm. fold M in Hm, Ha, Hn. fold N in Hn.
  cbn [Z.add] in Hc.
  assert (Hle : res_count r <= Z.of_nat (applied_count (res_events r))).
  { rewrite Hc. apply Z.mod_le; lia. }
  repeat split; try assumption.
  - intros Hlen. rewrite Hc. apply Z.mod_small. lia.
  - lia.
Qed.

Lemma C8_count_of_applied_patches_witness :
  res_count (yf_patchkernel_patch ex_lookup ex_table ex_mem) = 2 /\
  res_count (yf_patchkernel_patch ex_lookup ex_table ex_mem) <=
    Z.of_nat (Nat.min (resolvable ex_lookup ex_table)
                (matching ex_lookup ex_table 0 ex_mem)) /\
  res_count (yf_patchkernel_patch ex_lookup ex_table ex_mem_patched) = 1 /\
  already_count
    (res_events (yf_patchkernel_patch ex_lookup ex_table ex_mem_patched)) =
    1%nat /\
  resolvable ex_lookup ex_table = 2%nat.
Proof.
  split; [vm_compute; reflexivity|].
  split.
  - exact (proj1 (proj2 (proj2 (proj2 (proj2 (proj2
             (C8_count_of_applied_patches ex_lookup ex_table ex_mem))))))).
  - repeat split; vm_compute; reflexivity.
Defined.

(** C8 as stated fails, with K counted in the memory the pass is given.
    In [ex_mem] only the first of the two descriptors for [ip_forward]
    has a match: the instruction [ex_second] looks for is not there yet.
    The first descriptor stores it, the second finds it, and the pass
    returns 2 although M = 2 and K = 1. *)
Lemma C8_counterexample :
  ~ count_bounded_on_given_memory ex_lookup [ex_ip_forward; ex_second] ex_mem.
Proof.
  unfold count_bounded_on_given_memory. vm_compute.
  intros H. apply H. reflexivity.
Qed.

Lemma ip_forward_chain_counts :
  resolvable ex_lookup [ex_ip_forward; ex_second] = 2%nat /\
  matching_given ex_lookup [ex_ip_forward; ex_second] ex_mem = 1%nat /\
  matching ex_lookup [ex_ip_forward; ex_second] 0 ex_mem = 2%nat /\
  res_count (yf_patchkernel_patch ex_lookup [ex_ip_forward; ex_second] ex_mem)
  = 2.
Proof. repeat split; vm_compute; reflexivity. Qed.

Lemma reads_of_skip_guard (p : patchEntry) (m : memory) (i : nat) :
  forall ptr j, (j < i)%nat ->
  In (ptr_add (pos ptr j) (patchOffset p)) (reads_of (skip_events p m i ptr)).
Proof.
  induction i as [|i IH]; intros ptr j Hj; [lia|].
  cbn [skip_events]. rewrite reads_of_app. apply in_or_app.
  destruct j as [|j].
  - left. unfold miss_events, guard_reads. cbn. right. now left.
  - right. cbn [pos]. apply IH. lia.
Qed.

Lemma scan_all_miss (p : patchEntry) (c : Z) (m : memory) (n : nat)
    (ptr : Z) :
  (forall j, (j < n)%nat ->
     already p m (pos ptr j) = false /\ hit p m (pos ptr j) = false) ->
  scan n ptr p c m = ((p, c, m), skip_events p m n ptr).
Proof.
  intros H. pose proof (scan_skip p c m n 0 ptr H) as E.
  rewrite Nat.add_0_r in E. rewrite E. cbn [scan]. unfold emit.
  cbn [fst snd]. now rewrite app_nil_r.
Qed.

(** * Further properties of the code *)

(** ** A window without a match *)

(** X1.  When no position of a resolved descriptor's window ends the
    loop (at none is the word to patch already [patchValue], at none do
    search comparison and verification both succeed), the loop runs
    through all [maxOffset] positions, reading at each the word there and
    the word [patchOffset] further; nothing is written, the counter and
    the result fields other than [startAddress] are as before, and the
    only lines printed are the announcement and, when the descriptor is
    not flagged, the one saying that no instruction was found. *)
Theorem X1_window_exhausted (lookup : string -> Z) (p : patchEntry)
    (c : Z) (m : memory) :
  let base := lookup (fname p) in
  base <> 0 ->
  (forall j, (j < Z.to_nat (maxOffset p))%nat ->
     already p m (window_pos base p j) = false /\
     hit p m (window_pos base p j) = false) ->
  let rp := patch_entry lookup p c m in
  res_val rp = set_startAddress p base /\
  res_count rp = c /\
  res_mem rp = m /\
  writes_of (res_events rp) = [] /\
  infos_of (res_events rp) = MsgPatching (fname p) base :: no_instruction p /\
  (forall j, (j < Z.to_nat (maxOffset p))%nat ->
     In (window_pos base p j) (reads_of (res_events rp)) /\
     In (ptr_add (window_pos base p j) (patchOffset p))
        (reads_of (res_events rp))).
Proof.
  intros base Hb Hs rp.
  assert (Hrp : rp =
    ((set_startAddress p base, c, m),
     EvInfo (MsgPatching (fname p) base) ::
     skip_events p m (Z.to_nat (maxOffset p)) (ptr_add base (startOffset p))
     ++ if isPatched p =? 0
        then [EvInfo (MsgNoInstruction (fname p))] else [])).
  { subst rp. rewrite patch_entry_scan by exact Hb. cbv zeta. fold base.
    rewrite scan_all_miss.
    - reflexivity.
    - intros j Hj. rewrite pos_window. now apply Hs. }
  rewrite Hrp. rewrite res_val_mk, res_count_mk, res_mem_mk, res_events_mk.
  repeat split.
  - rewrite writes_of_info, writes_of_app, writes_of_skip.
    now destruct (isPatched p =? 0).
  - change (infos_of (EvInfo ?i :: ?l)) with (i :: infos_of l).
    rewrite infos_of_app, infos_of_skip. unfold no_instruction.
    now destruct (isPatched p =? 0).
  - change (reads_of (EvInfo ?i :: ?l)) with (reads_of l).
    rewrite reads_of_app. apply in_or_app. left.
    rewrite <- pos_window. now apply reads_of_skip_pos.
  - change (reads_of (EvInfo ?i :: ?l)) with (reads_of l).
    rewrite reads_of_app. apply in_or_app. left.
    rewrite <- pos_window. now apply reads_of_skip_guard.
Qed.

Lemma X1_window_exhausted_witness :
  ex_lookup (fname ex_netif) <> 0 /\
  writes_of (res_events (patch_entry ex_lookup ex_netif 0 ex_blank)) = [].
Proof.
  split; [vm_compute; discriminate|].
  apply (proj1 (proj2 (proj2 (proj2
           (X1_window_exhausted ex_lookup ex_netif 0 ex_blank
              ltac:(vm_compute; discriminate)
              ltac:(intros j Hj;
                    change (Z.to_nat (maxOffset ex_netif)) with 10%nat in Hj;
                    do 10 (destruct j as [|j];
                           [split; vm_compute; reflexivity|]);
                    lia)))))).
Defined.

(** ** The configuration is read-only *)

Lemma same_config_refl (p : patchEntry) : same_config p p.
Proof. repeat split. Qed.

Lemma same_config_trans (p q r : patchEntry) :
  same_config p q -> same_config q r -> same_config p r.
Proof.
  unfold same_config. intros H1 H2.
  decompose [and] H1. decompose [and] H2. repeat split; congruence.
Qed.

Lemma restore_entry_same_config (p : patchEntry) (m : memory) :
  same_config p (fst (fst (restore_entry p m))).
Proof.
  unfold restore_entry. destruct (negb (isPatched p =? 0)); repeat split.
Qed.

Lemma run_pass_same_config (lookup : string -> Z) (ph : pass)
    (l : list patchEntry) (m : memory) :
  Forall2 same_config l (fst (run_pass lookup ph l m)).
Proof.
  destruct ph; cbn [run_pass fst].
  - apply patch_loop_Forall2. intros p c mm. apply patch_entry_same_config.
  - apply restore_Forall2. intros p mm. apply restore_entry_same_config.
Qed.

(** X2.  Whatever sequence of apply and reverse passes is run over a
    table, in whatever memory, the table keeps its length and every
    descriptor keeps its name and its search, verification and patch
    configuration: the passes assign only [startAddress], [patchAddress],
    [originalValue] and [isPatched]. *)
Theorem X2_configuration_is_never_changed (lookup : string -> Z)
    (phs : list pass) :
  forall (ps : list patchEntry) (m : memory),
  Forall2 same_config ps (fst (run_passes lookup phs ps m)) /\
  List.length (fst (run_passes lookup phs ps m)) = List.length ps.
Proof.
  assert (H : forall ps m,
            Forall2 same_config ps (fst (run_passes lookup phs ps m))).
  { induction phs as [|ph phs IH]; intros ps m.
    - cbn [run_passes fst]. induction ps; constructor;
        [apply same_config_refl | assumption].
    - cbn [run_passes].
      refine (Forall2_compose _ _ same_config same_config_trans _ _ _
                (run_pass_same_config lookup ph ps m) (IH _ _)). }
  intros ps m. split; [apply H|].
  symmetry. apply (Forall2_length (H ps m)).
Qed.

(** ** The counter and the flags *)

Lemma flagged_app (l1 l2 : list patchEntry) :
  flagged (l1 ++ l2) = flagged l1 ++ flagged l2.
Proof. apply filter_app. Qed.

Lemma patched_addresses_length (l : list patchEntry) :
  List.length (patched_addresses l) = List.length (flagged l).
Proof. unfold patched_addresses, flagged. apply length_map. Qed.

(** X3.  Loading the module with a table whose flags are clear (of
    fewer than [2^32] entries) leaves in the file-scope counter, and
    prints, the number of descriptors it has flagged as patched; and
    [yf_patchkernel_init] returns [0] whatever that number is. *)
Theorem X3_counter_counts_the_flags (lookup : string -> Z)
    (d : module_data) (m : memory) :
  Forall (fun p => isPatched p = 0) (table d) ->
  Z.of_nat (List.length (table d)) < 2 ^ 32 ->
  let r := yf_patchkernel_init lookup d m in
  let d' := snd (fst (fst r)) in
  fst (fst (fst r)) = 0 /\
  patches_applied d' = Z.of_nat (List.length (flagged (table d'))) /\
  last (infos_of (snd r)) MsgInitStarted =
    MsgPatchesApplied (Z.of_nat (List.length (flagged (table d')))).
Proof.
  intros Hfresh Hlen r d'. subst d' r. unfold yf_patchkernel_init.
  cbn [fst snd table patches_applied].
  set (r := yf_patchkernel_patch lookup (table d) m).
  assert (E : snd (fst (fst r)) =
              Z.of_nat (List.length (flagged (fst (fst (fst r)))))).
  { destruct (patch_loop_counts lookup (table d) 0 m) as (Hc & _ & Hm & Ha & Hn);
      [lia|].
    destruct (patch_loop_sites lookup (table d) Hfresh 0 m) as [Hw _].
    fold (yf_patchkernel_patch lookup (table d) m) in Hc, Ha, Hw.
    fold r in Hc, Ha, Hw.
    change (snd (fst (fst r))) with (res_count r).
    change (fst (fst (fst r))) with (res_val r).
    rewrite <- patched_addresses_length, <- Hw, length_map.
    fold (applied_count (res_events r)).
    rewrite Hc. cbn [Z.add]. apply Z.mod_small. lia. }
  split; [reflexivity|]. split; [exact E|].
  rewrite !infos_of_app.
  change (infos_of [EvInfo (MsgPatchesApplied (snd (fst (fst r))))])
    with [MsgPatchesApplied (snd (fst (fst r)))].
  rewrite app_assoc, last_last. now rewrite E.
Qed.

Lemma X3_counter_counts_the_flags_witness :
  Forall (fun p => isPatched p = 0) (table (module_loaded 16)) /\
  patches_applied
    (snd (fst (fst (yf_patchkernel_init ex_lookup (module_loaded 16) ex_mem))))
  = 2.
Proof.
  assert (H : Forall (fun p => isPatched p = 0) (table (module_loaded 16)))
    by (repeat constructor).
  split; [exact H|].
  rewrite (proj1 (proj2
             (X3_counter_counts_the_flags ex_lookup (module_loaded 16) ex_mem
                H ltac:(vm_compute; reflexivity)))).
  vm_compute. reflexivity.
Defined.

(** ** Loading and unloading *)

Lemma restore_mem_ext (l : list patchEntry) :
  forall (m1 m2 : memory) (a : Z),
  (~ In a (patched_addresses l) -> m1 a = m2 a) ->
  snd (fst (yf_patchkernel_restore l m1)) a =
  snd (fst (yf_patchkernel_restore l m2)) a.
Proof.
  induction l as [|q l IH]; intros m1 m2 a H.
  - cbn. apply H. intros [].
  - cbn [yf_patchkernel_restore fst snd].
    change (q :: l) with ([q] ++ l) in H.
    rewrite patched_addresses_app in H.
    unfold patched_addresses at 1 in H. cbn [filter] in H.
    destruct (Z.eq_dec (isPatched q) 0) as [E|E].
    + rewrite !restore_entry_unpatched by exact E. cbn [fst snd].
      apply IH. intros Hn. apply H. apply Z.eqb_eq in E. rewrite E. exact Hn.
    + rewrite !restore_entry_patched by exact E. cbn [fst snd].
      apply IH. intros Hn. apply Z.eqb_neq in E. rewrite E in H.
      cbn [negb map app] in H.
      destruct (Z.eq_dec a (patchAddress q)) as [->|Hne].
      * now rewrite !store_same.
      * rewrite !store_other by exact Hne. apply H.
        intros [Hq|Hin]; [now apply Hne | now apply Hn].
Qed.

Lemma patch_entry_fresh (lookup : string -> Z) (p : patchEntry) (c : Z)
    (m : memory) :
  isPatched p = 0 ->
  let rp := patch_entry lookup p c m in
  (isPatched (res_val rp) = 0 /\ res_mem rp = m) \/
  (exists a,
     hit p m a = true /\ already p m a = false /\
     isPatched (res_val rp) = 1 /\
     patchAddress (res_val rp) = ptr_add a (patchOffset p) /\
     originalValue (res_val rp) = m (ptr_add a (patchOffset p)) /\
     res_mem rp = store m (ptr_add a (patchOffset p)) (patchValue p)).
Proof.
  intros H0 rp.
  pose proof (patch_entry_outcome lookup p c m) as H. cbv zeta in H.
  fold rp in H. unfold outcome in H. unfold res_val, res_mem.
  destruct (lookup (fname p) =? 0).
  - left. rewrite H. cbn. now split.
  - destruct (scanner p m _ _) as [a | a' | ] eqn:Hs.
    + right. exists a. destruct H as (Hst & _).
      destruct (scanner_found_inv _ _ _ _ _ Hs) as (_ & _ & _ & Hh & Ha).
      rewrite Hst. cbn. repeat split; assumption.
    + left. destruct H as (Hst & _). rewrite Hst. cbn. now split.
    + left. destruct H as (Hst & _). rewrite Hst. cbn. now split.
Qed.

Lemma round_trip_memory (lookup : string -> Z) (ps : list patchEntry) :
  Forall (fun p => isPatched p = 0) ps ->
  forall c m,
  let r := patch_loop lookup ps c m in
  NoDup (patched_addresses (res_val r)) ->
  forall a,
  snd (fst (yf_patchkernel_restore (res_val r) (res_mem r))) a = m a.
Proof.
  induction 1 as [|p ps Hp _ IH]; intros c m; [reflexivity|].
  cbv zeta. rewrite patch_loop_cons. cbv zeta.
  rewrite res_val_mk, res_mem_mk.
  set (rp := patch_entry lookup p c m).
  specialize (IH (res_count rp) (res_mem rp)). cbv zeta in IH.
  set (r := patch_loop lookup ps (res_count rp) (res_mem rp)) in *.
  change (res_val rp :: res_val r) with ([res_val rp] ++ res_val r).
  rewrite patched_addresses_app. unfold patched_addresses at 1.
  cbn [filter app]. cbn [yf_patchkernel_restore fst snd].
  destruct (patch_entry_fresh lookup p c m Hp)
    as [[Hflag Hmem] | (x & _ & _ & Hflag & Haddr & Horig & Hmem)];
    fold rp in Hflag, Hmem.
  - rewrite Hflag. cbn [Z.eqb negb map app]. intros Hnd a.
    rewrite restore_entry_unpatched by exact Hflag. cbn [fst snd].
    rewrite IH by exact Hnd. now rewrite Hmem.
  - fold rp in Haddr, Horig. rewrite Hflag. cbn [Z.eqb negb map app].
    intros Hnd a. inversion Hnd as [|? ? Hnotin Hnd']; subst.
    rewrite restore_entry_patched by (rewrite Hflag; discriminate).
    cbn [fst snd].
    destruct (Z.eq_dec a (patchAddress (res_val rp))) as [->|Hne].
    + rewrite (proj2 (restore_sites (res_val r) _)) by exact Hnotin.
      rewrite store_same, Horig, Haddr. reflexivity.
    + rewrite (restore_mem_ext (res_val r) _ (res_mem r) a).
      * rewrite IH by exact Hnd'. rewrite Hmem, store_other; [reflexivity|].
        now rewrite <- Haddr.
      * intros _. now apply store_other.
Qed.

(** X4.  Take a table whose flags are clear.  If the apply pass leaves no
    two flagged descriptors with the same patch address, then the
    reverse pass that follows it puts every word of memory back to its
    content before the apply pass. *)
Theorem X4_apply_then_reverse_restores_memory (lookup : string -> Z)
    (ps : list patchEntry) (m : memory) :
  Forall (fun p => isPatched p = 0) ps ->
  let r := yf_patchkernel_patch lookup ps m in
  NoDup (patched_addresses (res_val r)) ->
  forall a,
  snd (fst (yf_patchkernel_restore (res_val r) (res_mem r))) a = m a.
Proof.
  intros Hfresh r Hnd. exact (round_trip_memory lookup ps Hfresh 0 m Hnd).
Qed.

Lemma X4_apply_then_reverse_restores_memory_witness :
  Forall (fun p => isPatched p = 0) ex_table /\
  let r := yf_patchkernel_patch ex_lookup ex_table ex_mem in
  res_mem r 0x80200018 = 0 /\
  snd (fst (yf_patchkernel_restore (res_val r) (res_mem r))) 0x80200018 =
  ex_mem 0x80200018.
Proof.
  assert (H : Forall (fun p => isPatched p = 0) ex_table)
    by (repeat constructor).
  split; [exact H|]. split; [vm_compute; reflexivity|].
  apply (X4_apply_then_reverse_restores_memory ex_lookup ex_table ex_mem H).
  vm_compute. repeat constructor; cbn; intuition discriminate.
Defined.

Lemma cannot_repatch_excludes (v : Z) (q : patchEntry) (m : memory) (a : Z) :
  cannot_repatch v q ->
  m (ptr_add a (patchOffset q)) = v ->
  already q m a = false ->
  hit q m a = true ->
  False.
Proof.
  intros [Hv | (Hvo & Heq & Hmask)] Hm Ha Hh.
  - unfold already in Ha. rewrite Hm, Hv, Z.eqb_refl in Ha. discriminate.
  - unfold hit, verified in Hh. apply andb_true_iff in Hh as [_ Hh].
    apply Z.eqb_neq in Hvo. rewrite Hvo in Hh. cbn [orb] in Hh.
    rewrite Heq, Hm in Hh. apply Z.eqb_eq in Hh. now apply Hmask.
Qed.

Lemma independent_sites (lookup : string -> Z) (ps : list patchEntry) :
  Forall (fun p => isPatched p = 0) ps ->
  independent ps ->
  forall c m (S : list (Z * Z)),
  (forall A v, In (A, v) S -> m A = v /\ Forall (cannot_repatch v) ps) ->
  let r := patch_loop lookup ps c m in
  NoDup (patched_addresses (res_val r)) /\
  forall a, In a (patched_addresses (res_val r)) -> ~ In a (map fst S).
Proof.
  induction 1 as [|p ps Hp _ IH]; intros Hind c m S HS.
  - cbn. split; [constructor | intros a []].
  - inversion Hind as [|? ? Hhead Htail]; subst.
    cbv zeta. rewrite patch_loop_cons. cbv zeta. rewrite res_val_mk.
    set (rp := patch_entry lookup p c m).
    change (res_val rp :: ?l) with ([res_val rp] ++ l).
    rewrite patched_addresses_app. unfold patched_addresses at 1 3.
    cbn [filter].
    destruct (patch_entry_fresh lookup p c m Hp)
      as [[Hflag Hmem] | (x & Hh & Ha & Hflag & Haddr & _ & Hmem)];
      fold rp in Hflag, Hmem.
    + rewrite Hflag. cbn [Z.eqb negb map app]. rewrite Hmem.
      apply (IH Htail (res_count rp) m S).
      intros A v Hin. destruct (HS A v Hin) as [HA HF].
      split; [exact HA|]. exact (Forall_inv_tail HF).
    + fold rp in Haddr. rewrite Hflag. cbn [Z.eqb negb map app].
      assert (Hnew : ~ In (patchAddress (res_val rp)) (map fst S)).
      { intros Hin. apply in_map_iff in Hin as ([A v] & EA & Hin).
        cbn [fst] in EA. subst A. destruct (HS _ v Hin) as [HA HF].
        pose proof (Forall_inv HF) as Hcr.
        rewrite Haddr in HA.
        exact (cannot_repatch_excludes v p m x Hcr HA Ha Hh). }
      destruct (IH Htail (res_count rp) (res_mem rp)
                  ((patchAddress (res_val rp), patchValue p) :: S))
        as [Hnd Hout].
      { intros A v [E | Hin].
        - injection E as <- <-. split; [|exact Hhead].
          rewrite Hmem, Haddr. apply store_same.
        - destruct (HS A v Hin) as [HA HF].
          split; [|exact (Forall_inv_tail HF)].
          rewrite Hmem, <- Haddr. rewrite store_other; [exact HA|].
          intros ->. apply Hnew. now apply (in_map fst) in Hin. }
      split.
      * constructor; [|exact Hnd].
        intros Hin. apply (Hout _ Hin). now left.
      * intros a [<- | Hin]; [exact Hnew|].
        intros HinS. apply (Hout _ Hin). now right.
Qed.

(** X5.  A condition on the table alone that makes loading and
    unloading leave memory as found.  Let the flags be clear, and let
    every descriptor be unable to patch a word patched by an earlier one:
    it has the earlier one's [patchValue], or it verifies the word it
    patches and the earlier [patchValue] fails that verification.  Then,
    for every symbol lookup and every memory, the apply pass flags no two
    descriptors at the same address, and the reverse pass after it puts
    every word back. *)
Theorem X5_independent_table_round_trip (lookup : string -> Z)
    (ps : list patchEntry) (m : memory) :
  Forall (fun p => isPatched p = 0) ps ->
  independent ps ->
  let r := yf_patchkernel_patch lookup ps m in
  NoDup (patched_addresses (res_val r)) /\
  forall a,
    snd (fst (yf_patchkernel_restore (res_val r) (res_mem r))) a = m a.
Proof.
  intros Hfresh Hind r.
  destruct (independent_sites lookup ps Hfresh Hind 0 m [])
    as [Hnd _]; [intros A v []|].
  split; [exact Hnd|].
  exact (round_trip_memory lookup ps Hfresh 0 m Hnd).
Qed.

Lemma table_independent (offsetof_sk : Z) :
  Forall (fun p => isPatched p = 0) (patchesForTunDevice offsetof_sk) /\
  independent (patchesForTunDevice offsetof_sk).
Proof.
  split; [repeat constructor|].
  unfold independent, patchesForTunDevice.
  apply FOP_cons.
  - apply Forall_cons; [|apply Forall_cons; [|apply Forall_nil]];
      right; cbn; repeat split; discriminate.
  - apply FOP_cons.
    + apply Forall_cons; [left; reflexivity | apply Forall_nil].
    + apply FOP_cons; [apply Forall_nil | apply FOP_nil].
Qed.

Lemma X5_independent_table_round_trip_witness :
  Forall (fun p => isPatched p = 0) (patchesForTunDevice 16) /\
  independent (patchesForTunDevice 16) /\
  let r := yf_patchkernel_patch ex_lookup (patchesForTunDevice 16) ex_mem in
  forall a,
    snd (fst (yf_patchkernel_restore (res_val r) (res_mem r))) a = ex_mem a.
Proof.
  split; [apply table_independent|]. split; [apply table_independent|].
  exact (proj2 (X5_independent_table_round_trip ex_lookup
                  (patchesForTunDevice 16) ex_mem
                  (proj1 (table_independent 16))
                  (proj2 (table_independent 16)))).
Defined.

(** X6.  The module, loaded into any kernel (any symbol table, any
    memory, any layout of [struct sk_buff]) and then removed, leaves
    every word of memory as it found it and every flag of its table
    clear; and removing it without its having patched anything writes
    nothing. *)
Theorem X6_module_load_unload (lookup : string -> Z) (offsetof_sk : Z)
    (m : memory) :
  let r := yf_patchkernel_init lookup (module_loaded offsetof_sk) m in
  let r' := yf_patchkernel_exit (snd (fst (fst r))) (snd (fst r)) in
  (forall a, snd (fst r') a = m a) /\
  Forall (fun p => isPatched p = 0) (table (fst (fst r'))) /\
  yf_patchkernel_exit (module_loaded offsetof_sk) m =
    ((module_loaded offsetof_sk, m),
     [EvInfo MsgRemoved; EvInfo MsgAllReversed]).
Proof.
  intros r r'. subst r' r.
  unfold yf_patchkernel_exit, yf_patchkernel_init.
  cbn [fst snd table patches_applied module_loaded].
  destruct (table_independent offsetof_sk) as [Hfresh Hind].
  split; [|split].
  - destruct (independent_sites lookup _ Hfresh Hind 0 m [])
      as [Hnd _]; [intros A v []|].
    exact (round_trip_memory lookup _ Hfresh 0 m Hnd).
  - apply restore_clears_flags.
  - rewrite restore_unpatched by exact Hfresh. reflexivity.
Qed.

(** ** Loading over a patch already in place *)

Lemma ptr_add_inj (b x y : Z) :
  ptr_add b x = ptr_add b y -> - 2 ^ 30 < x - y < 2 ^ 30 -> x = y.
Proof.
  unfold ptr_add. intros E Hr.
  pose proof (Z.div_mod (b + 4 * x) (2 ^ 32) ltac:(lia)) as Hx.
  pose proof (Z.div_mod (b + 4 * y) (2 ^ 32) ltac:(lia)) as Hy.
  rewrite E in Hx.
  set (qx := (b + 4 * x) / 2 ^ 32) in *.
  set (qy := (b + 4 * y) / 2 ^ 32) in *.
  clearbody qx qy.
  change (2 ^ 30) with 1073741824 in Hr.
  change (2 ^ 32) with 4294967296 in Hx, Hy.
  assert (x - y = 1073741824 * (qx - qy)) by lia.
  assert (qx - qy = 0) by nia. lia.
Qed.

Lemma patch_entry_already_at (lookup : string -> Z) (p : patchEntry)
    (c : Z) (m : memory) (i : nat) :
  let base := lookup (fname p) in
  base <> 0 ->
  (i < Z.to_nat (maxOffset p))%nat ->
  (forall j, (j < i)%nat ->
     already p m (window_pos base p j) = false /\
     hit p m (window_pos base p j) = false) ->
  already p m (window_pos base p i) = true ->
  patch_entry lookup p c m =
  ((set_startAddress p base, c, m),
   EvInfo (MsgPatching (fname p) base) ::
   (skip_events p m i (window_pos base p 0) ++
    already_events p m (window_pos base p i)) ++
   if isPatched p =? 0 then [EvInfo (MsgNoInstruction (fname p))] else []).
Proof.
  intros base Hb Hi Hs Ha.
  rewrite patch_entry_scan by exact Hb. cbv zeta. fold base.
  rewrite (fuel_split _ _ Hi).
  rewrite <- (pos_window base p 0). cbn [pos].
  rewrite scan_reaches_already.
  - rewrite pos_window. reflexivity.
  - intros j Hj. rewrite pos_window. now apply Hs.
  - now rewrite pos_window.
Qed.

Lemma patch_entry_hit_at (lookup : string -> Z) (p : patchEntry)
    (c : Z) (m : memory) (i : nat) :
  let base := lookup (fname p) in
  base <> 0 ->
  (i < Z.to_nat (maxOffset p))%nat ->
  (forall j, (j < i)%nat ->
     already p m (window_pos base p j) = false /\
     hit p m (window_pos base p j) = false) ->
  already p m (window_pos base p i) = false ->
  hit p m (window_pos base p i) = true ->
  patch_entry lookup p c m =
  ((set_startAddress (applied_entry p m (window_pos base p i)) base,
    (c + 1) mod 2 ^ 32,
    store m (ptr_add (window_pos base p i) (patchOffset p)) (patchValue p)),
   EvInfo (MsgPatching (fname p) base) ::
   (skip_events p m i (window_pos base p 0) ++
    hit_events p m (window_pos base p i)) ++ []).
Proof.
  intros base Hb Hi Hs Ha Hh.
  rewrite patch_entry_scan by exact Hb. cbv zeta. fold base.
  rewrite (fuel_split _ _ Hi).
  rewrite <- (pos_window base p 0). cbn [pos].
  rewrite scan_reaches_hit.
  - rewrite pos_window. reflexivity.
  - intros j Hj. rewrite pos_window. now apply Hs.
  - now rewrite pos_window.
  - now rewrite pos_window.
Qed.

(** X7.  The guard does what it is there for.  Take a descriptor with
    the flag clear that either has no verification or verifies the word
    it patches ([verifyOffset = patchOffset]), with a window that does
    not wrap around the address space, and let its turn patch at
    position [i].  Give a copy of the descriptor with the flag clear
    another turn in the memory so patched, as when the module is loaded
    again over its own patch: the scan passes the same positions before
    [i], stops at [i] on the guard, prints that the patched instruction
    is there, and writes nothing. *)
Theorem X7_second_load_stops_on_guard (lookup : string -> Z)
    (p : patchEntry) (c c' : Z) (m : memory) (i : nat) :
  let base := lookup (fname p) in
  base <> 0 ->
  isPatched p = 0 ->
  verifyOffset p = 0 \/ verifyOffset p = patchOffset p ->
  0 <= patchOffset p ->
  maxOffset p + patchOffset p <= 2 ^ 30 ->
  (i < Z.to_nat (maxOffset p))%nat ->
  (forall j, (j <= i)%nat -> already p m (window_pos base p j) = false) ->
  (forall j, (j < i)%nat -> hit p m (window_pos base p j) = false) ->
  hit p m (window_pos base p i) = true ->
  let a := ptr_add (window_pos base p i) (patchOffset p) in
  let r1 := patch_entry lookup p c m in
  let r2 := patch_entry lookup p c' (res_mem r1) in
  res_mem r1 = store m a (patchValue p) /\
  isPatched (res_val r1) = 1 /\
  writes_of (res_events r2) = [] /\
  res_mem r2 = res_mem r1 /\
  res_count r2 = c' /\
  isPatched (res_val r2) = 0 /\
  infos_of (res_events r2) =
    [MsgPatching (fname p) base; MsgFoundPatched (patchValue p) a;
     MsgNoInstruction (fname p)].
Proof.
  intros base Hb Hf Hvo Hpo Hmax Hi Ha Hm Hh a r1 r2.
  assert (Hr1 : r1 =
    ((set_startAddress (applied_entry p m (window_pos base p i)) base,
      (c + 1) mod 2 ^ 32, store m a (patchValue p)),
     EvInfo (MsgPatching (fname p) base) ::
     (skip_events p m i (window_pos base p 0) ++
      hit_events p m (window_pos base p i)) ++ [])).
  { subst r1. apply patch_entry_hit_at; auto.
    intros j Hj. split; [apply Ha; lia | now apply Hm]. }
  assert (Hm1 : res_mem r1 = store m a (patchValue p)) by now rewrite Hr1.
  set (m' := store m a (patchValue p)) in *.
  assert (Hother : forall j d, (j < i)%nat -> 0 <= d <= patchOffset p ->
            m' (ptr_add (window_pos base p j) d) =
            m (ptr_add (window_pos base p j) d)).
  { intros j d Hj Hd. apply store_other. subst a. unfold window_pos.
    rewrite !ptr_add_ptr_add. intros E. apply ptr_add_inj in E; lia. }
  assert (Hself : forall j, (j < i)%nat ->
            m' (window_pos base p j) = m (window_pos base p j)).
  { intros j Hj. apply store_other. subst a. unfold window_pos.
    rewrite ptr_add_ptr_add. intros E. apply ptr_add_inj in E; lia. }
  assert (Hr2 : r2 =
    ((set_startAddress p base, c', m'),
     EvInfo (MsgPatching (fname p) base) ::
     (skip_events p m' i (window_pos base p 0) ++
      already_events p m' (window_pos base p i)) ++
     if isPatched p =? 0 then [EvInfo (MsgNoInstruction (fname p))] else [])).
  { subst r2. rewrite Hm1. apply patch_entry_already_at; auto.
    - intros j Hj. split.
      + unfold already. rewrite Hother by lia. apply Ha. lia.
      + rewrite <- (Hm j Hj). unfold hit, primary, verified.
        rewrite Hself by exact Hj.
        destruct Hvo as [-> | ->]; [reflexivity|].
        now rewrite Hother by lia.
    - unfold already. fold a. unfold m'. rewrite store_same.
      apply Z.eqb_refl. }
  split; [exact Hm1|]. split; [now rewrite Hr1|].
  rewrite Hr2, Hm1.
  rewrite res_events_mk, res_mem_mk, res_count_mk, res_val_mk.
  repeat split.
  - rewrite writes_of_info, !writes_of_app, writes_of_skip, writes_of_already.
    now destruct (isPatched p =? 0).
  - exact Hf.
  - change (infos_of (EvInfo ?x :: ?l)) with (x :: infos_of l).
    rewrite !infos_of_app, infos_of_skip, infos_of_already. rewrite Hf.
    cbn. fold a. unfold m'. now rewrite store_same.
Qed.

Lemma X7_second_load_stops_on_guard_witness :
  ex_lookup (fname ex_netif) <> 0 /\
  writes_of
    (res_events
       (patch_entry ex_lookup ex_netif 0
          (res_mem (patch_entry ex_lookup ex_netif 0 ex_mem)))) = [].
Proof.
  split; [vm_compute; discriminate|].
  refine (proj1 (proj2 (proj2
            (X7_second_load_stops_on_guard ex_lookup ex_netif 0 0 ex_mem 5
               _ _ _ _ _ _ _ _ _)))).
  - vm_compute; discriminate.
  - reflexivity.
  - right. reflexivity.
  - vm_compute; discriminate.
  - vm_compute; discriminate.
  - vm_compute; lia.
  - intros j Hj.
    destruct j as [|[|[|[|[|[|j]]]]]]; [vm_compute; reflexivity .. | lia].
  - intros j Hj.
    destruct j as [|[|[|[|[|j]]]]]; [vm_compute; reflexivity .. | lia].
  - vm_compute; reflexivity.
Defined.

(** ** What a descriptor's turn looks at *)

Lemma tests_agree (p : patchEntry) (m1 m2 : memory) (ptr : Z) :
  (forall a, touches p ptr a -> m2 a = m1 a) ->
  m2 ptr = m1 ptr /\
  m2 (ptr_add ptr (patchOffset p)) = m1 (ptr_add ptr (patchOffset p)) /\
  already p m2 ptr = already p m1 ptr /\
  primary p m2 ptr = primary p m1 ptr /\
  hit p m2 ptr = hit p m1 ptr.
Proof.
  intros H.
  assert (H0 : m2 ptr = m1 ptr) by (apply H; now left).
  assert (H1 : m2 (ptr_add ptr (patchOffset p)) =
               m1 (ptr_add ptr (patchOffset p)))
    by (apply H; right; now left).
  unfold hit, already, primary, verified. rewrite H0, H1.
  repeat split.
  destruct (verifyOffset p =? 0) eqn:Hv; [reflexivity|].
  apply Z.eqb_neq in Hv. rewrite (H (ptr_add ptr (verifyOffset p))).
  - reflexivity.
  - right. right. now split.
Qed.

Lemma scan_agree (p : patchEntry) (c : Z) (m1 m2 : memory) (n : nat) :
  forall ptr,
  (forall j, (j < n)%nat ->
     forall a, touches p (pos ptr j) a -> m2 a = m1 a) ->
  res_val (scan n ptr p c m2) = res_val (scan n ptr p c m1) /\
  res_count (scan n ptr p c m2) = res_count (scan n ptr p c m1) /\
  res_events (scan n ptr p c m2) = res_events (scan n ptr p c m1) /\
  forall a, m2 a = m1 a ->
    res_mem (scan n ptr p c m2) a = res_mem (scan n ptr p c m1) a.
Proof.
  induction n as [|n IH]; intros ptr H.
  - cbn. repeat split. auto.
  - destruct (tests_agree p m1 m2 ptr (H O ltac:(lia)))
      as (E0 & E1 & Ea & Ep & Eh).
    destruct (already p m1 ptr) eqn:Ha.
    + rewrite (scan_already n ptr p c m1) by exact Ha.
      rewrite (scan_already n ptr p c m2) by (now rewrite Ea).
      unfold already_events. rewrite E1. repeat split. auto.
    + destruct (hit p m1 ptr) eqn:Hh.
      * rewrite (scan_hit n ptr p c m1) by assumption.
        rewrite (scan_hit n ptr p c m2) by (now rewrite ?Ea, ?Eh).
        unfold applied_entry, hit_events. rewrite E1.
        rewrite !res_val_mk, !res_count_mk, !res_events_mk, !res_mem_mk.
        repeat split. intros a Eq. unfold store.
        destruct (a =? ptr_add ptr (patchOffset p)); auto.
      * rewrite (scan_miss n ptr p c m1) by assumption.
        rewrite (scan_miss n ptr p c m2) by (now rewrite ?Ea, ?Eh).
        destruct (IH (ptr_add ptr 1)) as (Iv & Ic & Ie & Im).
        { intros j Hj. apply (H (S j)). lia. }
        unfold emit, res_val, res_count, res_events, res_mem in *.
        cbn [fst snd]. unfold miss_events. rewrite Ep, Ie.
        repeat split; assumption.
Qed.

(** X8.  A descriptor's turn in the apply pass looks at nothing but the
    words at the positions of its window and the words [patchOffset]
    and, when configured, [verifyOffset] further.  Two memories that
    agree on those words give the same descriptor, the same count and the
    same events (reads, the write, printed lines with their values), and
    the two resulting memories agree wherever the two initial ones do. *)
Theorem X8_turn_depends_on_window_only (lookup : string -> Z)
    (p : patchEntry) (c : Z) (m1 m2 : memory) :
  (forall j, (j < Z.to_nat (maxOffset p))%nat ->
     forall a, touches p (window_pos (lookup (fname p)) p j) a ->
     m2 a = m1 a) ->
  let r1 := patch_entry lookup p c m1 in
  let r2 := patch_entry lookup p c m2 in
  res_val r2 = res_val r1 /\
  res_count r2 = res_count r1 /\
  res_events r2 = res_events r1 /\
  forall a, m2 a = m1 a -> res_mem r2 a = res_mem r1 a.
Proof.
  intros H r1 r2. subst r1 r2.
  destruct (Z.eq_dec (lookup (fname p)) 0) as [Hb|Hb].
  - rewrite !patch_entry_unresolved by exact Hb. repeat split. auto.
  - rewrite !patch_entry_scan by exact Hb. cbv zeta.
    destruct (scan_agree p c m1 m2 (Z.to_nat (maxOffset p))
                (ptr_add (lookup (fname p)) (startOffset p)))
      as (Ev & Ec & Ee & Em).
    { intros j Hj a. rewrite pos_window. now apply H. }
    rewrite !res_val_mk, !res_count_mk, !res_events_mk, !res_mem_mk.
    rewrite Ev, Ec, Ee. repeat split. exact Em.
Qed.

Lemma X8_turn_depends_on_window_only_witness :
  res_events (patch_entry ex_lookup ex_netif 0
                (mem_of_words 0x80200000 ex_netif_text ex_blank)) =
  res_events (patch_entry ex_lookup ex_netif 0 ex_mem).
Proof.
  refine (proj1 (proj2 (proj2
            (X8_turn_depends_on_window_only ex_lookup ex_netif 0 ex_mem
               (mem_of_words 0x80200000 ex_netif_text ex_blank) _)))).
  intros j Hj a Ht.
  change (Z.to_nat (maxOffset ex_netif)) with 10%nat in Hj.
  do 10 (destruct j as [|j];
         [destruct Ht as [-> | [-> | [_ ->]]]; vm_compute; reflexivity|]).
  lia.
Defined.

(** ** Verification switched off *)

Lemma tests_without_verification (p : patchEntry) (v a o : Z) (m : memory)
    (ptr : Z) :
  verifyOffset p = 0 ->
  already (set_verification p v a o) m ptr = already p m ptr /\
  primary (set_verification p v a o) m ptr = primary p m ptr /\
  hit (set_verification p v a o) m ptr = hit p m ptr /\
  hit p m ptr = primary p m ptr.
Proof.
  intros H. unfold hit, verified, primary, already.
  cbn [set_verification verifyOffset patchOffset patchValue andMask orMask
       lookFor]. rewrite H. cbn [Z.eqb orb].
  rewrite andb_true_r. repeat split.
Qed.

Lemma scan_set_verification (p : patchEntry) (v a o c : Z) (m : memory)
    (n : nat) :
  verifyOffset p = 0 ->
  forall ptr,
  scan n ptr (set_verification p v a o) c m =
  let r := scan n ptr p c m in
  ((set_verification (res_val r) v a o, res_count r, res_mem r),
   res_events r).
Proof.
  intros H. induction n as [|n IH]; intros ptr; [reflexivity|].
  destruct (tests_without_verification p v a o m ptr H) as (Ea & Ep & Eh & _).
  destruct (already p m ptr) eqn:Ha.
  - rewrite (scan_already n ptr p) by exact Ha.
    rewrite scan_already by (now rewrite Ea). reflexivity.
  - destruct (hit p m ptr) eqn:Hh.
    + rewrite (scan_hit n ptr p) by assumption.
      rewrite scan_hit by (now rewrite ?Ea, ?Eh). reflexivity.
    + rewrite (scan_miss n ptr p) by assumption.
      rewrite scan_miss by (now rewrite ?Ea, ?Eh).
      rewrite IH. cbv zeta. unfold miss_events. rewrite Ep. reflexivity.
Qed.

(** X9.  With [verifyOffset = 0] no verification is made: the values of
    [verifyValue], [verifyAndMask] and [verifyOrMask] change nothing in
    what the descriptor's turn reads, writes, prints, counts or records,
    and a position is patched as soon as the guard lets it through and
    the search comparison succeeds.  (So the word found itself cannot be
    given a second comparison.) *)
Theorem X9_zero_verifyOffset_disables_verification (lookup : string -> Z)
    (p : patchEntry) (v a o c : Z) (m : memory) :
  verifyOffset p = 0 ->
  let r := patch_entry lookup p c m in
  patch_entry lookup (set_verification p v a o) c m =
    ((set_verification (res_val r) v a o, res_count r, res_mem r),
     res_events r) /\
  forall n ptr,
    already p m ptr = false -> primary p m ptr = true ->
    res_mem (scan (S n) ptr p c m) =
      store m (ptr_add ptr (patchOffset p)) (patchValue p).
Proof.
  intros H r. subst r. split.
  - destruct (Z.eq_dec (lookup (fname p)) 0) as [Hb|Hb].
    + rewrite (patch_entry_unresolved lookup p) by exact Hb.
      rewrite patch_entry_unresolved by exact Hb. reflexivity.
    + rewrite (patch_entry_resolved lookup p) by exact Hb.
      rewrite patch_entry_resolved by exact Hb. cbv zeta.
      cbn [fname maxOffset startOffset set_verification].
      change (set_startAddress (set_verification p v a o) ?b)
        with (set_verification (set_startAddress p b) v a o).
      rewrite scan_set_verification by exact H. cbv zeta.
      set (r := scan _ _ (set_startAddress p (lookup (fname p))) c m).
      unfold res_val, res_count, res_mem, res_events.
      cbn [fst snd set_verification isPatched fname]. reflexivity.
  - intros n ptr Ha Hp. rewrite scan_hit; [reflexivity | exact Ha |].
    destruct (tests_without_verification p 0 0 0 m ptr H) as (_ & _ & _ & E).
    now rewrite E.
Qed.

Lemma X9_zero_verifyOffset_disables_verification_witness :
  verifyOffset ex_ip_forward = 0 /\
  res_events (patch_entry ex_lookup
                (set_verification ex_ip_forward 0x336 0xFFE0FFFF 0) 0 ex_mem) =
  res_events (patch_entry ex_lookup ex_ip_forward 0 ex_mem).
Proof.
  split; [reflexivity|].
  rewrite (proj1 (X9_zero_verifyOffset_disables_verification ex_lookup
                    ex_ip_forward 0x336 0xFFE0FFFF 0 0 ex_mem eq_refl)).
  apply res_events_mk.
Defined.

(** ** Loading again after unloading *)

Lemma patch_entry_ext (lookup : string -> Z) (p : patchEntry) (c : Z)
    (m1 m2 : memory) :
  (forall a, m2 a = m1 a) ->
  res_val (patch_entry lookup p c m2) = res_val (patch_entry lookup p c m1) /\
  res_count (patch_entry lookup p c m2) =
    res_count (patch_entry lookup p c m1) /\
  res_events (patch_entry lookup p c m2) =
    res_events (patch_entry lookup p c m1) /\
  forall a, res_mem (patch_entry lookup p c m2) a =
            res_mem (patch_entry lookup p c m1) a.
Proof.
  intros H.
  destruct (Z.eq_dec (lookup (fname p)) 0) as [Hb|Hb].
  - rewrite !patch_entry_unresolved by exact Hb. repeat split. exact H.
  - rewrite !patch_entry_scan by exact Hb. cbv zeta.
    destruct (scan_agree p c m1 m2 (Z.to_nat (maxOffset p))
                (ptr_add (lookup (fname p)) (startOffset p)))
      as (Ev & Ec & Ee & Em).
    { intros j Hj a _. apply H. }
    rewrite !res_val_mk, !res_count_mk, !res_events_mk, !res_mem_mk.
    rewrite Ev, Ec, Ee. repeat split. intros a. apply Em, H.
Qed.

Lemma patch_loop_ext (lookup : string -> Z) (ps : list patchEntry) :
  forall c (m1 m2 : memory),
  (forall a, m2 a = m1 a) ->
  res_val (patch_loop lookup ps c m2) = res_val (patch_loop lookup ps c m1) /\
  res_count (patch_loop lookup ps c m2) =
    res_count (patch_loop lookup ps c m1) /\
  res_events (patch_loop lookup ps c m2) =
    res_events (patch_loop lookup ps c m1) /\
  forall a, res_mem (patch_loop lookup ps c m2) a =
            res_mem (patch_loop lookup ps c m1) a.
Proof.
  induction ps as [|p ps IH]; intros c m1 m2 H.
  - cbn. repeat split. exact H.
  - rewrite !patch_loop_cons. cbv zeta.
    destruct (patch_entry_ext lookup p c m1 m2 H) as (Ev & Ec & Ee & Em).
    rewrite Ec.
    destruct (IH (res_count (patch_entry lookup p c m1)) _ _ Em)
      as (Iv & Ic & Ie & Im).
    rewrite !res_val_mk, !res_count_mk, !res_events_mk, !res_mem_mk.
    rewrite Ev, Ee, Iv, Ic, Ie. repeat split. exact Im.
Qed.

(** X10.  A table with clear flags in which no descriptor can patch a
    word patched by an earlier one may be loaded, unloaded and loaded
    again: the second apply pass, run on the table as it was at first
    and on the memory the reverse pass has left, flags the same
    descriptors with the same addresses and original values, returns the
    same count, produces the same events and leaves the same memory as
    the first. *)
Theorem X10_load_unload_load (lookup : string -> Z) (ps : list patchEntry)
    (m : memory) :
  Forall (fun p => isPatched p = 0) ps ->
  independent ps ->
  let r1 := yf_patchkernel_patch lookup ps m in
  let back := yf_patchkernel_restore (res_val r1) (res_mem r1) in
  let r2 := yf_patchkernel_patch lookup ps (snd (fst back)) in
  res_val r2 = res_val r1 /\
  res_count r2 = res_count r1 /\
  res_events r2 = res_events r1 /\
  forall a, res_mem r2 a = res_mem r1 a.
Proof.
  intros Hfresh Hind r1 back r2. subst r2. unfold yf_patchkernel_patch.
  apply patch_loop_ext. subst back r1. unfold yf_patchkernel_patch.
  destruct (independent_sites lookup ps Hfresh Hind 0 m [])
    as [Hnd _]; [intros A v []|].
  exact (round_trip_memory lookup ps Hfresh 0 m Hnd).
Qed.

Lemma X10_load_unload_load_witness :
  Forall (fun p => isPatched p = 0) (patchesForTunDevice 16) /\
  independent (patchesForTunDevice 16) /\
  let r1 := yf_patchkernel_patch ex_lookup (patchesForTunDevice 16) ex_mem in
  let back := yf_patchkernel_restore (res_val r1) (res_mem r1) in
  res_count (yf_patchkernel_patch ex_lookup (patchesForTunDevice 16)
               (snd (fst back))) = res_count r1.
Proof.
  split; [apply table_independent|]. split; [apply table_independent|].
  exact (proj1 (proj2 (X10_load_unload_load ex_lookup
                         (patchesForTunDevice 16) ex_mem
                         (proj1 (table_independent 16))
                         (proj2 (table_independent 16))))).
Defined.

(** ** What the module's table looks for *)

Lemma land_rt_field (w : Z) :
  0 <= w -> Z.land w 0x001F0000 = 2 ^ 16 * ((w / 2 ^ 16) mod 32).
Proof.
  intros Hw.
  assert (E : Z.land w 0x001F0000 =
              Z.shiftl (Z.land (Z.shiftr w 16) (Z.ones 5)) 16).
  { apply Z.bits_inj'. intros k Hk.
    rewrite Z.land_spec.
    destruct (Z.lt_ge_cases k 16) as [Hlt|Hge].
    - rewrite Z.shiftl_spec_low by exact Hlt.
      change 0x001F0000 with (Z.shiftl 31 16).
      rewrite Z.shiftl_spec_low by exact Hlt. apply Bool.andb_false_r.
    - rewrite Z.shiftl_spec_high by lia.
      rewrite Z.land_spec, Z.shiftr_spec by lia.
      change 0x001F0000 with (Z.shiftl 31 16).
      rewrite Z.shiftl_spec_high by lia.
      replace (k - 16 + 16) with k by lia. reflexivity. }
  rewrite E, Z.land_ones, Z.shiftl_mul_pow2, Z.shiftr_div_pow2 by lia.
  change (2 ^ 5) with 32. lia.
Qed.

Lemma land_without_rt (w : Z) :
  0 <= w < 2 ^ 32 ->
  Z.land w (0xFFFFFFFF - 0x001F0000) = w - 2 ^ 16 * ((w / 2 ^ 16) mod 32).
Proof.
  intros Hw. rewrite <- land_rt_field by lia.
  assert (Hsplit : w = Z.land w (0xFFFFFFFF - 0x001F0000) + Z.land w 0x001F0000).
  { rewrite Z.add_nocarry_lxor.
    - rewrite Z.lxor_lor.
      + rewrite <- Z.land_lor_distr_r.
        change (Z.lor (0xFFFFFFFF - 0x001F0000) 0x001F0000) with (Z.ones 32).
        rewrite Z.land_ones by lia. symmetry. apply Z.mod_small. exact Hw.
      + apply Z.bits_inj'. intros k Hk. rewrite !Z.land_spec, Z.bits_0.
        assert (Hm : (Z.testbit (0xFFFFFFFF - 0x001F0000) k && Z.testbit 0x001F0000 k)%bool = false).
        { rewrite <- Z.land_spec. change (Z.land (0xFFFFFFFF - 0x001F0000) 0x001F0000) with 0. apply Z.bits_0. }
        destruct (Z.testbit w k); cbn; [exact Hm | reflexivity].
    - apply Z.bits_inj'. intros k Hk. rewrite !Z.land_spec, Z.bits_0.
      assert (Hm : (Z.testbit (0xFFFFFFFF - 0x001F0000) k && Z.testbit 0x001F0000 k)%bool = false).
      { rewrite <- Z.land_spec. change (Z.land (0xFFFFFFFF - 0x001F0000) 0x001F0000) with 0. apply Z.bits_0. }
      destruct (Z.testbit w k); cbn; [exact Hm | reflexivity]. }
  lia.
Qed.

Lemma masked_without_rt_iff (w L : Z) :
  0 <= w < 2 ^ 32 ->
  (L / 2 ^ 16) mod 32 = 0 ->
  masked w (MIPS_AND_MASK - MIPS_RT_MASK) 0 = L <->
  exists rt, 0 <= rt < 32 /\ w = L + rt * 2 ^ 16.
Proof.
  intros Hw HL. unfold masked, MIPS_AND_MASK, MIPS_RT_MASK.
  rewrite Z.lor_0_r, land_without_rt by exact Hw.
  split.
  - intros E. exists ((w / 2 ^ 16) mod 32).
    split; [apply Z.mod_pos_bound; lia | lia].
  - intros (rt & Hrt & ->).
    rewrite Z.div_add by lia. rewrite Z.add_mod by lia.
    rewrite HL, Z.add_0_l, Z.mod_mod by lia.
    rewrite (Z.mod_small rt) by exact Hrt. lia.
Qed.

(** X11.  What the three descriptors of the module's table search for.
    For a 16-bit structure offset, a 32-bit word passes the search
    comparison of any of them exactly when it is [lw rt, offset(a0)] for
    some register [rt]; and it passes the verification of the two that
    have one exactly when it is [tne zero, rt] with trap code 12 for some
    register [rt]: the masks leave out the [rt] field and nothing
    else. *)
Theorem X11_table_matches_lw_then_tne (offsetof_sk w : Z) (p : patchEntry) :
  In p (patchesForTunDevice offsetof_sk) ->
  0 <= offsetof_sk < 2 ^ 16 ->
  0 <= w < 2 ^ 32 ->
  (masked w (andMask p) (orMask p) = lookFor p <->
   exists rt, 0 <= rt < 32 /\
     w = MIPS_LW + MIPS_REG_A0 * 2 ^ MIPS_BASE_SHFT + rt * 2 ^ MIPS_RT_SHFT
         + offsetof_sk) /\
  (verifyOffset p <> 0 ->
   (masked w (verifyAndMask p) (verifyOrMask p) = verifyValue p <->
    exists rt, 0 <= rt < 32 /\
      w = rt * 2 ^ MIPS_RT_SHFT + MIPS_TNE + MIPS_TRAP_CODE)).
Proof.
  intros Hin Hoff Hw.
  assert (Hlook : (MIPS_LW + Z.shiftl MIPS_REG_A0 MIPS_BASE_SHFT + offsetof_sk)
                  mod 2 ^ 32 = 0x8C800000 + offsetof_sk).
  { change (MIPS_LW + Z.shiftl MIPS_REG_A0 MIPS_BASE_SHFT) with 0x8C800000.
    apply Z.mod_small. change (2 ^ 32) with 4294967296.
    change (2 ^ 16) with 65536 in Hoff. lia. }
  assert (Hfield : ((0x8C800000 + offsetof_sk) / 2 ^ 16) mod 32 = 0).
  { replace (0x8C800000 + offsetof_sk) with (offsetof_sk + 0x8C80 * 2 ^ 16)
      by (change (2 ^ 16) with 65536; lia).
    rewrite Z.div_add by lia. rewrite Z.div_small by exact Hoff.
    reflexivity. }
  assert (Hsearch :
    masked w (MIPS_AND_MASK - MIPS_RT_MASK) 0 = 0x8C800000 + offsetof_sk <->
    exists rt, 0 <= rt < 32 /\
      w = MIPS_LW + MIPS_REG_A0 * 2 ^ MIPS_BASE_SHFT + rt * 2 ^ MIPS_RT_SHFT
          + offsetof_sk).
  { rewrite (masked_without_rt_iff w _ Hw Hfield).
    change (MIPS_LW + MIPS_REG_A0 * 2 ^ MIPS_BASE_SHFT) with 0x8C800000.
    change (2 ^ MIPS_RT_SHFT) with (2 ^ 16).
    split; intros (rt & Hrt & E); exists rt; (split; [exact Hrt | lia]). }
  assert (Hverify :
    masked w (MIPS_AND_MASK - MIPS_RT_MASK) 0 = MIPS_TNE + MIPS_TRAP_CODE <->
    exists rt, 0 <= rt < 32 /\
      w = rt * 2 ^ MIPS_RT_SHFT + MIPS_TNE + MIPS_TRAP_CODE).
  { rewrite (masked_without_rt_iff w (MIPS_TNE + MIPS_TRAP_CODE) Hw eq_refl).
    change (2 ^ MIPS_RT_SHFT) with (2 ^ 16).
    split; intros (rt & Hrt & E); exists rt; (split; [exact Hrt | lia]). }
  destruct Hin as [<- | [<- | [<- | []]]];
    cbn [andMask orMask lookFor verifyOffset verifyAndMask verifyOrMask
         verifyValue]; rewrite Hlook; (split; [exact Hsearch|]).
  - intros H. now elim H.
  - intros _. exact Hverify.
  - intros _. exact Hverify.
Qed.

Lemma X11_table_matches_lw_then_tne_witness :
  In ex_netif (patchesForTunDevice 16) /\
  (masked 0x8C830010 (andMask ex_netif) (orMask ex_netif) = lookFor ex_netif
   <-> exists rt, 0 <= rt < 32 /\
         0x8C830010 =
         MIPS_LW + MIPS_REG_A0 * 2 ^ MIPS_BASE_SHFT + rt * 2 ^ MIPS_RT_SHFT
         + 16).
Proof.
  assert (Hin : In ex_netif (patchesForTunDevice 16)) by (right; now left).
  split; [exact Hin|].
  exact (proj1 (X11_table_matches_lw_then_tne 16 0x8C830010 ex_netif Hin
                  ltac:(split; [discriminate | reflexivity])
                  ltac:(split; [discriminate | reflexivity]))).
Defined.

(** ** What the reverse pass leaves in memory *)

Lemma last_original_default (l : list patchEntry) (a : Z) :
  forall found,
  last_original l a found =
  match last_original l a None with
  | Some v => Some v
  | None => found
  end.
Proof.
  induction l as [|q l IH]; intros found; [reflexivity|].
  cbn [last_original].
  destruct (negb (isPatched q =? 0) && (patchAddress q =? a)).
  - rewrite (IH (Some (originalValue q))).
    now destruct (last_original l a None).
  - apply IH.
Qed.

(** X12.  The reverse pass, descriptor by descriptor in table order,
    writes for each flagged descriptor its [originalValue] to its
    [patchAddress], and nothing else.  So a word ends with the original
    recorded by the last flagged descriptor that names its address, and
    a word no flagged descriptor names keeps its content. *)
Theorem X12_reverse_pass_last_writer (l : list patchEntry) (m : memory) :
  writes_of (snd (yf_patchkernel_restore l m)) =
    map (fun q => (patchAddress q, originalValue q)) (flagged l) /\
  forall a,
    snd (fst (yf_patchkernel_restore l m)) a =
    match last_original l a None with
    | Some v => v
    | None => m a
    end.
Proof.
  split.
  - revert m. induction l as [|q l IH]; intros m; [reflexivity|].
    cbn [yf_patchkernel_restore fst snd]. rewrite writes_of_app, IH.
    unfold flagged. cbn [filter]. unfold restore_entry.
    destruct (negb (isPatched q =? 0)); reflexivity.
  - revert m. induction l as [|q l IH]; intros m a; [reflexivity|].
    cbn [yf_patchkernel_restore fst snd last_original].
    rewrite IH.
    rewrite (last_original_default l a
               (if negb (isPatched q =? 0) && (patchAddress q =? a)
                then Some (originalValue q) else None)).
    destruct (last_original l a None) as [v|]; [reflexivity|].
    unfold restore_entry.
    destruct (negb (isPatched q =? 0)); cbn [andb fst snd]; [|reflexivity].
    destruct (patchAddress q =? a) eqn:E.
    + apply Z.eqb_eq in E. subst a. apply store_same.
    + apply Z.eqb_neq in E. apply store_other. congruence.
Qed.

(** ** Where and what the apply pass writes *)

Lemma patch_entry_write_site (lookup : string -> Z) (p : patchEntry)
    (c : Z) (m : memory) (a v : Z) :
  In (a, v) (writes_of (res_events (patch_entry lookup p c m))) ->
  lookup (fname p) <> 0 /\
  v = patchValue p /\
  exists j, (j < Z.to_nat (maxOffset p))%nat /\
    a = ptr_add (window_pos (lookup (fname p)) p j) (patchOffset p).
Proof.
  intros Hin.
  pose proof (patch_entry_outcome lookup p c m) as H. cbv zeta in H.
  unfold outcome in H.
  destruct (lookup (fname p) =? 0) eqn:Hb.
  - rewrite H in Hin. destruct Hin.
  - apply Z.eqb_neq in Hb.
    destruct (scanner p m _ _) as [x | x | ] eqn:Hs.
    + destruct H as (_ & Hw & _). rewrite Hw in Hin.
      destruct Hin as [[= <- <-] | []].
      destruct (scanner_found_inv _ _ _ _ _ Hs) as (j & Hj & -> & _).
      split; [exact Hb|]. split; [reflexivity|].
      exists j. split; [exact Hj|]. now rewrite pos_window.
    + destruct H as (_ & Hw & _). rewrite Hw in Hin. destruct Hin.
    + destruct H as (_ & Hw & _). rewrite Hw in Hin. destruct Hin.
Qed.

Lemma patch_loop_write_sites (lookup : string -> Z) (ps : list patchEntry) :
  forall (m : memory) (c : Z),
  let r := patch_loop lookup ps c m in
  (forall a v, In (a, v) (writes_of (res_events r)) ->
     exists p j,
       In p ps /\ lookup (fname p) <> 0 /\ v = patchValue p /\
       (j < Z.to_nat (maxOffset p))%nat /\
       a = ptr_add (window_pos (lookup (fname p)) p j) (patchOffset p)) /\
  (forall a,
     res_mem r a = m a \/
     exists p, In p ps /\ lookup (fname p) <> 0 /\
               res_mem r a = patchValue p).
Proof.
  induction ps as [|p ps IH]; intros m c.
  - cbn. split; [intros a v [] | intros a; now left].
  - cbv zeta. rewrite patch_loop_cons. cbv zeta.
    rewrite res_events_mk, res_mem_mk.
    set (rp := patch_entry lookup p c m).
    destruct (IH (res_mem rp) (res_count rp)) as [IHw IHm].
    split.
    + intros a v Hin. rewrite writes_of_app in Hin.
      apply in_app_or in Hin as [Hin|Hin].
      * destruct (patch_entry_write_site lookup p c m a v Hin)
          as (Hb & Hv & j & Hj & Ha).
        exists p, j. split; [now left|]. repeat split; auto.
      * destruct (IHw a v Hin) as (q & j & Hq & H).
        exists q, j. split; [now right | exact H].
    + intros a. destruct (IHm a) as [E | (q & Hq & Hb & E)].
      * rewrite E.
        pose proof (patch_entry_outcome lookup p c m) as H. cbv zeta in H.
        fold rp in H. unfold outcome in H. unfold res_mem.
        destruct (lookup (fname p) =? 0) eqn:Hb.
        { rewrite H. now left. }
        apply Z.eqb_neq in Hb.
        destruct (scanner p m _ _) as [x | x | ];
          destruct H as (Hst & _); rewrite Hst; cbn [snd];
          [|now left|now left].
        unfold store. destruct (a =? ptr_add x (patchOffset p)).
        -- right. exists p. split; [now left|]. split; [exact Hb|].
           reflexivity.
        -- now left.
      * right. exists q. split; [now right|]. split; assumption.
Qed.

(** X13.  Whatever the table and the memory, every write of the apply
    pass stores the [patchValue] of a descriptor of the table whose
    symbol resolved, at the word [patchOffset] words after a position of
    that descriptor's window; and every word of memory after the pass
    either has its content from before the pass or holds the
    [patchValue] of such a descriptor. *)
Theorem X13_apply_pass_writes_only_patch_values (lookup : string -> Z)
    (ps : list patchEntry) (m : memory) :
  let r := yf_patchkernel_patch lookup ps m in
  (forall a v, In (a, v) (writes_of (res_events r)) ->
     exists p j,
       In p ps /\ lookup (fname p) <> 0 /\ v = patchValue p /\
       (j < Z.to_nat (maxOffset p))%nat /\
       a = ptr_add (window_pos (lookup (fname p)) p j) (patchOffset p)) /\
  (forall a,
     res_mem r a = m a \/
     exists p, In p ps /\ lookup (fname p) <> 0 /\
               res_mem r a = patchValue p).
Proof.
  exact (patch_loop_write_sites lookup ps m 0).
Qed.
